(** * Balance netting and monthly statistics of the expense-sharing server

    A shallow embedding of the request handlers [GET /api/balance] and
    [GET /api/stats] of [src/server.js], with the properties of the
    balance-netting engine and of the statistics aggregation.

    Conventions of the embedding:
    - a JavaScript [Number] is an exact rational ([Qc]); the rounding of
      IEEE doubles is not modelled, and the quotient by zero, [Infinity]
      in JavaScript, is [0] here (it is computed for an expense without
      participants and never used);
    - user identifiers are the strings produced by [_id.toString()];
    - a plain JavaScript object used as a dictionary is an association
      list in insertion order without duplicate keys, which is the order
      [Object.keys] enumerates (identifiers are never array indices);
    - an exception thrown inside the handler's [try] block is the value
      [TypeError] of the type [Result]. *)

From Stdlib Require Import QArith Qcanon Ascii.
From stdpp Require Import base option list strings numbers sorting.

Local Open Scope Qc_scope.
#[local] Set Warnings "-clear-no-such-hyp".
#[local] Set Warnings "-register-all".

(** ** Documents *)

(** A populated user reference: [populate("...", "username")] keeps the
    identifier and the user name. *)
Record User := mkUser {
  _id : string;
  username : string
}.

(** An expense document as the balance handler sees it after [populate],
    when the payer has a user document (the other case is [Fetched.t]
    below); [date] is the stored instant. *)
Record Expense := mkExpense {
  description : string;
  amount : Qc;
  category : string;
  paidBy : User;
  participants : list User;
  date : Z
}.

#[global] Instance User_eq_dec : EqDecision User.
Proof. solve_decision. Defined.

(** ** JavaScript objects used as dictionaries *)

Module Obj.

Definition t (V : Type) : Type := list (string * V).

Definition empty {V} : t V := [].

(** [o[k]] : [None] is [undefined]. *)
Fixpoint get {V} (o : t V) (k : string) : option V :=
  match o with
  | [] => None
  | (k', v) :: o' => if decide (k' = k) then Some v else get o' k
  end.

(** [o[k] = v] : an existing property keeps its place, a new one is
    added last. *)
Fixpoint set {V} (o : t V) (k : string) (v : V) : t V :=
  match o with
  | [] => [(k, v)]
  | (k', v') :: o' =>
      if decide (k' = k) then (k, v) :: o' else (k', v') :: set o' k v
  end.

(** [Object.keys(o)] *)
Definition keys {V} (o : t V) : list string := map fst o.

End Obj.

(** ** The accumulation phase of [GET /api/balance] *)

(** [balances] : debtor identifier, then creditor identifier, to amount. *)
Definition Ledger : Type := Obj.t (Obj.t Qc).

(** [x || {}] *)
Definition or_empty (x : option (Obj.t Qc)) : Obj.t Qc := default Obj.empty x.

(** [x || 0] *)
Definition or_zero (x : option Qc) : Qc := default 0 x.

(** [balances[a][b]] read through both levels. *)
Definition get2 (balances : Ledger) (a b : string) : option Qc :=
  Obj.get balances a ≫= λ row, Obj.get row b.

(** [expense.amount / expense.participants.length] *)
Definition amountPerPerson (expense : Expense) : Qc :=
  amount expense / Q2Qc (inject_Z (Z.of_nat (length (participants expense)))).

(** The body of [expense.participants.forEach], one [let] per assignment:
    [b1] is [balances[participantId] = balances[participantId] || {}],
    [b2] is [balances[participantId][paidBy] = (... || 0) + amountPerPerson]
    (the row object is updated in place), and [b3] and the result are
    the same two assignments for [balances[paidBy][participantId]], with
    [- amountPerPerson]. *)
Definition participant_step (paidBy : string) (share : Qc)
    (balances : Ledger) (participant : User) : Ledger :=
  let participantId := _id participant in
  if decide (paidBy ≠ participantId) then
    let b1 :=
      Obj.set balances participantId (or_empty (Obj.get balances participantId)) in
    let r1 := or_empty (Obj.get b1 participantId) in
    let b2 :=
      Obj.set b1 participantId (Obj.set r1 paidBy (or_zero (Obj.get r1 paidBy) + share)) in
    let b3 := Obj.set b2 paidBy (or_empty (Obj.get b2 paidBy)) in
    let r3 := or_empty (Obj.get b3 paidBy) in
    Obj.set b3 paidBy
      (Obj.set r3 participantId (or_zero (Obj.get r3 participantId) - share))
  else balances.

(** The body of [expenses.forEach]. *)
Definition expense_step (balances : Ledger) (expense : Expense) : Ledger :=
  fold_left (participant_step (_id (paidBy expense)) (amountPerPerson expense))
            (participants expense) balances.

(** Lines 121 to 130: [balances] after the loop over the expenses. *)
Definition accumulate (expenses : list Expense) : Ledger :=
  fold_left expense_step expenses Obj.empty.

(** ** Exceptions inside the handler *)

Inductive Result (A : Type) : Type :=
  | Ok (a : A)
  | TypeError.
Arguments Ok {A} a.
Arguments TypeError {A}.

#[global] Instance Result_bind : MBind Result := λ A B f r,
  match r with
  | Ok a => f a
  | TypeError => TypeError
  end.

(** [ks.forEach(k => body)] where the body updates a state and may throw:
    a throw abandons the remaining iterations. *)
Definition forEach {K S : Type} (body : S → K → Result S) (ks : list K)
    (init : Result S) : Result S :=
  fold_left (λ acc k, acc ≫= λ s, body s k) ks init.

(** ** The formatting phase of [GET /api/balance] *)

(** An element of [formattedBalances]: [{ owes, amount, user }]. *)
Module Entry.
Record t := mk {
  owes : bool;
  amount : Qc;
  user : User
}.
End Entry.

#[global] Instance Entry_eq_dec : EqDecision Entry.t.
Proof. solve_decision. Defined.

#[global] Instance Result_eq_dec {A} `{EqDecision A} : EqDecision (Result A).
Proof. solve_decision. Defined.

(** [p => p._id.toString() === otherUserId] *)
Definition is_user (otherUserId : string) (p : User) : bool :=
  bool_decide (_id p = otherUserId).

(** [e => e.paidBy._id.toString() === otherUserId] *)
Definition paid_by (otherUserId : string) (e : Expense) : bool :=
  is_user otherUserId (paidBy e).

(** [e => e.paidBy._id.toString() === otherUserId ||
          e.participants.some(p => p._id.toString() === otherUserId)];
    also the filter [{ $or: [{ paidBy: userId }, { participants: userId }] }]. *)
Definition involves (otherUserId : string) (e : Expense) : bool :=
  paid_by otherUserId e || existsb (is_user otherUserId) (participants e).

(** The expression bound to [const user]: reading [.participants] or
    [.paidBy] of the [undefined] returned by an unsuccessful [find]
    throws. *)
Definition find_user (expenses : list Expense) (otherUserId : string) : Result User :=
  match List.find (involves otherUserId) expenses with
  | None => TypeError
  | Some e =>
      match List.find (is_user otherUserId) (participants e) with
      | Some p => Ok p
      | None =>
          match List.find (paid_by otherUserId) expenses with
          | Some e' => Ok (paidBy e')
          | None => TypeError
          end
      end
  end.

(** Body of the loop over [Object.keys(balances[userId] || {})]. *)
Definition owes_body (expenses : list Expense) (balances : Ledger) (userId : string)
    (formattedBalances : list Entry.t) (otherUserId : string) : Result (list Entry.t) :=
  match Obj.get balances userId with
  | None => TypeError
  | Some row =>
      match Obj.get row otherUserId with
      | Some amount =>
          if decide (0 < amount) then
            user ← find_user expenses otherUserId;
            Ok (formattedBalances ++ [Entry.mk true amount user])
          else Ok formattedBalances
      | None => Ok formattedBalances
      end
  end.

(** Body of the loop over [Object.keys(balances)]. *)
Definition owed_body (expenses : list Expense) (balances : Ledger) (userId : string)
    (formattedBalances : list Entry.t) (otherUserId : string) : Result (list Entry.t) :=
  if decide (otherUserId ≠ userId) then
    match Obj.get balances otherUserId with
    | None => TypeError
    | Some row =>
        match Obj.get row userId with
        | Some x =>
            if decide (x ≠ 0) then
              let amount := - x in
              if decide (0 < amount) then
                user ← find_user expenses otherUserId;
                Ok (formattedBalances ++ [Entry.mk false amount user])
              else Ok formattedBalances
            else Ok formattedBalances
        | None => Ok formattedBalances
        end
    end
  else Ok formattedBalances.

(** Lines 131 to 145: both loops over the finished ledger. *)
Definition formatBalances (userId : string) (expenses : list Expense)
    (balances : Ledger) : Result (list Entry.t) :=
  let formattedBalances :=
    forEach (owes_body expenses balances userId)
            (Obj.keys (or_empty (Obj.get balances userId))) (Ok []) in
  forEach (owed_body expenses balances userId) (Obj.keys balances) formattedBalances.

(** The engine: lines 121 to 145 of the handler, on the fetched list. *)
Definition computeBalances (userId : string) (expenses : list Expense)
    : Result (list Entry.t) :=
  formatBalances userId expenses (accumulate expenses).

Inductive Response : Type :=
  | Json (body : list Entry.t)
  | ServerError.

#[global] Instance Response_eq_dec : EqDecision Response.
Proof. solve_decision. Defined.

(** [GET /api/balance] over the stored expenses: the query keeps the
    expenses the user paid or takes part in. *)
Definition balance_handler (store : list Expense) (userId : string) : Response :=
  match computeBalances userId (filter (λ e, involves userId e) store) with
  | Ok formattedBalances => Json formattedBalances
  | TypeError => ServerError
  end.

(** ** Net positions read off the ledger *)

Definition sumQc (l : list Qc) : Qc := foldr Qcplus 0 l.

(** What [userId] owes: the positive entries of the row [balances[userId]]. *)
Definition owes_total (balances : Ledger) (userId : string) : Qc :=
  sumQc (filter (λ v, 0 < v) (map snd (or_empty (Obj.get balances userId)))).

(** What [userId] is owed: the negative entries of the row, negated. *)
Definition owed_total (balances : Ledger) (userId : string) : Qc :=
  sumQc (map Qcopp (filter (λ v, v < 0) (map snd (or_empty (Obj.get balances userId))))).

Definition net_position (balances : Ledger) (userId : string) : Qc :=
  owed_total balances userId - owes_total balances userId.

(** The users of an expense list: payers and participants, once each. *)
Definition all_users (expenses : list Expense) : list string :=
  remove_dups (flat_map (λ e, _id (paidBy e) :: map _id (participants e)) expenses).

(** ** The monthly statistics of [GET /api/stats] *)

Module Monthly.

(** The group key [{ year, month }]. *)
Record key := mkKey {
  year : Z;
  month : Z
}.

(** A result document [{ _id: { year, month }, total }]. *)
Record t := mk {
  _id : key;
  total : Qc
}.

#[global] Instance key_eq_dec : EqDecision key.
Proof. solve_decision. Defined.

#[global] Instance t_eq_dec : EqDecision t.
Proof. solve_decision. Defined.

(** The order of [{ $sort: { "_id.year": -1, "_id.month": -1 } }]:
    [newer k1 k2] when [k1] comes strictly before [k2]. *)
Definition newer (k1 k2 : key) : Prop :=
  (year k2 < year k1)%Z ∨ (year k1 = year k2 ∧ (month k2 < month k1)%Z).

Definition not_older (g1 g2 : t) : Prop :=
  _id g1 = _id g2 ∨ newer (_id g1) (_id g2).

#[global] Instance newer_dec k1 k2 : Decision (newer k1 k2).
Proof. unfold newer. apply _. Defined.

#[global] Instance not_older_dec g1 g2 : Decision (not_older g1 g2).
Proof. unfold not_older. apply _. Defined.

End Monthly.

Section stats.
(** The operators [$year] and [$month] of the database, applied to the
    stored date. *)
Variables dateYear dateMonth : Z → Z.

Definition month_of (e : Expense) : Monthly.key :=
  Monthly.mkKey (dateYear (date e)) (dateMonth (date e)).

(** [$group] with the accumulator [{ $sum: "$amount" }]: the document
    joins the group of its key, or opens a new one.  The database leaves
    the order of the groups open; here it is the order of first
    occurrence, and the [$sort] stage that follows fixes it. *)
Fixpoint group_add (k : Monthly.key) (a : Qc) (groups : list Monthly.t)
    : list Monthly.t :=
  match groups with
  | [] => [Monthly.mk k (0 + a)]
  | g :: groups' =>
      if decide (Monthly._id g = k)
      then Monthly.mk k (Monthly.total g + a) :: groups'
      else g :: group_add k a groups'
  end.

Definition group_by_month (docs : list Expense) : list Monthly.t :=
  fold_left (λ groups e, group_add (month_of e) (amount e) groups) docs [].

(** The pipeline [$match, $group, $sort, $limit] of [monthlyExpenses];
    [$match] is the filter of the balance query, on the identifiers. *)
Definition monthlyExpenses (store : list Expense) (userId : string) : list Monthly.t :=
  take 12 (merge_sort Monthly.not_older
             (group_by_month (filter (λ e, involves userId e) store))).

(** The sum of the amounts of the documents of one month. *)
Definition month_total (docs : list Expense) (k : Monthly.key) : Qc :=
  sumQc (map amount (filter (λ e, month_of e = k) docs)).

End stats.

(** * Vocabulary of the statements *)

(** ** Shape of the ledger *)

Definition irreflexive_ledger (b : Ledger) : Prop := ∀ a, get2 b a a = None.

Definition antisymmetric_ledger (b : Ledger) : Prop :=
  ∀ a c, get2 b c a = Qcopp <$> get2 b a c.

(** Some expense of the list has [k] as payer or among its participants. *)
Definition mentioned (expenses : list Expense) (k : string) : Prop :=
  ∃ e, e ∈ expenses ∧ involves k e = true.

(** Every row and every column of the ledger belongs to a user that
    occurs in the list. *)
Definition ledger_within (expenses : list Expense) (b : Ledger) : Prop :=
  (∀ k, k ∈ Obj.keys b → mentioned expenses k) ∧
  (∀ a c, is_Some (get2 b a c) → mentioned expenses c).

(** What both loops guarantee of an entry they push: its counterparty is
    another user, its amount is positive, and the amount is the ledger
    entry of the requesting user against the counterparty. *)
Definition debt_entry (b : Ledger) (userId : string) (x : Entry.t) : Prop :=
  _id (Entry.user x) ≠ userId ∧
  0 < Entry.amount x ∧
  get2 b userId (_id (Entry.user x)) = Some (Entry.amount x).

(** Sum of a weight over the values of a dictionary. *)
Definition wsum {V} (w : V → Qc) (o : Obj.t V) : Qc := sumQc (map (λ kv, w kv.2) o).

Definition row_sum (row : Obj.t Qc) : Qc := wsum id row.

(** The sum of all entries of the ledger. *)
Definition grand_total (b : Ledger) : Qc := wsum row_sum b.

(** The two statements of the participant loop that raise one entry by
    [delta]. *)
Definition raise_entry (b : Ledger) (a c : string) (delta : Qc) : Ledger :=
  let b1 := Obj.set b a (or_empty (Obj.get b a)) in
  let r1 := or_empty (Obj.get b1 a) in
  Obj.set b1 a (Obj.set r1 c (or_zero (Obj.get r1 c) + delta)).

(** ** What the loops push *)

(** The user object the lookup returns; the identifier alone stands in
    where the lookup throws. *)
Definition user_of (expenses : list Expense) (k : string) : User :=
  match find_user expenses k with
  | Ok u => u
  | TypeError => mkUser k ""
  end.

(** The entries the first loop pushes at the key [k]. *)
Definition owes_emit (expenses : list Expense) (b : Ledger) (userId k : string)
    : list Entry.t :=
  match get2 b userId k with
  | Some v => if decide (0 < v) then [Entry.mk true v (user_of expenses k)] else []
  | None => []
  end.

(** The entries the second loop pushes at the key [k]. *)
Definition owed_emit (expenses : list Expense) (b : Ledger) (userId k : string)
    : list Entry.t :=
  if decide (k ≠ userId) then
    match get2 b k userId with
    | Some x =>
        if decide (x ≠ 0) then
          if decide (0 < - x) then [Entry.mk false (- x) (user_of expenses k)] else []
        else []
    | None => []
    end
  else [].

(** The entries of an output whose counterparty is [c]. *)
Definition entries_for (c : string) (out : list Entry.t) : list Entry.t :=
  filter (λ x, _id (Entry.user x) = c) out.

(** Every row of the ledger has distinct keys. *)
Definition rows_NoDup (b : Ledger) : Prop :=
  ∀ a row, Obj.get b a = Some row → NoDup (Obj.keys row).

(** ** Kinds of expenses *)

(** The user objects of a populated list. *)
Definition users_of (expenses : list Expense) : list User :=
  flat_map (λ e, paidBy e :: participants e) expenses.

(** Objects populated from the same user document are equal. *)
Definition consistent_users (expenses : list Expense) : Prop :=
  Forall (λ u, Forall (λ v, _id u = _id v → u = v) (users_of expenses))
         (users_of expenses).

(** The payer is the only participant. *)
Definition sole_payer (e : Expense) : Prop :=
  match participants e with
  | [p] => _id p = _id (paidBy e)
  | _ => False
  end.

(** Zero participants or a non-positive amount. *)
Definition malformed (e : Expense) : Prop :=
  participants e = [] ∨ amount e ≤ 0.

(** ** Monthly groups *)

(** The total recorded for a key. *)
Fixpoint total_of (k : Monthly.key) (groups : list Monthly.t) : option Qc :=
  match groups with
  | [] => None
  | g :: groups' =>
      if decide (Monthly._id g = k) then Some (Monthly.total g) else total_of k groups'
  end.

Definition newer_doc (g1 g2 : Monthly.t) : Prop :=
  Monthly.newer (Monthly._id g1) (Monthly._id g2).

(** ** Sample data *)

Definition money (z : Z) : Qc := Q2Qc (inject_Z z).

Definition U1 : User := mkUser "U1" "alice".
Definition U2 : User := mkUser "U2" "bob".
Definition U3 : User := mkUser "U3" "carol".

(** Scenario 1 of the specification. *)
Definition scenario1 : list Expense :=
  [mkExpense "dinner" (money 100) "Food" U1 [U1; U2] 0].

(** Scenario 2 of the specification. *)
Definition scenario2 : list Expense :=
  [mkExpense "dinner" (money 100) "Food" U1 [U1; U2] 0;
   mkExpense "taxi" (money 60) "Travel" U2 [U1; U2] 1].

(** Scenario 3 of the specification. *)
Definition scenario3 : list Expense :=
  [mkExpense "hotel" (money 90) "Travel" U1 [U1; U2; U3] 0].

(** An expense the payer has alone. *)
Definition coffee : Expense := mkExpense "coffee" (money 5) "Food" U1 [U1] 2.

(** Fourteen months of rent shared by U1 and U2, a second expense in the
    last month, and an expense of other users; the date counts months
    from January 2024. *)
Definition rents : list Expense :=
  map (λ n, mkExpense "rent" (money 10) "Home" U1 [U1; U2] (Z.of_nat n)) (seq 0 14)
  ++ [mkExpense "party" (money 5) "Food" U2 [U1; U2] 13;
      mkExpense "gift" (money 7) "Gifts" U3 [U3] 13].

Definition sampleYear (d : Z) : Z := 2024 + d / 12.
Definition sampleMonth (d : Z) : Z := d mod 12 + 1.

(** Two malformed expenses: a negative amount, and no participants. *)
Definition refund : Expense := mkExpense "refund" (money (-100)) "Food" U1 [U1; U2] 3.
Definition nobody : Expense := mkExpense "nobody" (money 10) "Food" U2 [] 4.

(** ** Documents whose payer is missing *)

(** An expense document as [populate] returns it to the balance handler:
    [paidBy] is [null], here [None], when no user document has the stored
    identifier, which [POST /api/expenses] does not check. *)
Module Fetched.
Record t := mk {
  description : string;
  amount : Qc;
  category : string;
  paidBy : option User;
  participants : list User;
  date : Z
}.
End Fetched.

(** [expense.paidBy._id] of line 123: reading [_id] of [null] throws. *)
Definition with_payer (expense : Fetched.t) : Result Expense :=
  match Fetched.paidBy expense with
  | Some payer =>
      Ok (mkExpense (Fetched.description expense) (Fetched.amount expense)
                    (Fetched.category expense) payer
                    (Fetched.participants expense) (Fetched.date expense))
  | None => TypeError
  end.

(** The body of [expenses.forEach] on such a document. *)
Definition fetched_step (balances : Ledger) (expense : Fetched.t) : Result Ledger :=
  e ← with_payer expense; Ok (expense_step balances e).

(** Lines 121 to 130 on such documents: the loop throws at the first
    expense without payer. *)
Definition accumulate_fetched (expenses : list Fetched.t) : Result Ledger :=
  forEach fetched_step expenses (Ok Obj.empty).

(** The list as the callbacks of lines 134 and 141 read it, every payer
    dereferenced. *)
Fixpoint with_payers (expenses : list Fetched.t) : Result (list Expense) :=
  match expenses with
  | [] => Ok []
  | expense :: rest =>
      e ← with_payer expense; es ← with_payers rest; Ok (e :: es)
  end.

(** The [try] block of [GET /api/balance] on the fetched list, and its
    [catch]: the formatting phase is reached when the accumulation loop
    has not thrown. *)
Definition balance_of_fetched (userId : string) (expenses : list Fetched.t) : Response :=
  match accumulate_fetched expenses with
  | Ok balances =>
      match with_payers expenses ≫= λ es, formatBalances userId es balances with
      | Ok formattedBalances => Json formattedBalances
      | TypeError => ServerError
      end
  | TypeError => ServerError
  end.

(** Zero participants or a non-positive amount, for a fetched document. *)
Definition malformed_fetched (expense : Fetched.t) : Prop :=
  Fetched.participants expense = [] ∨ Fetched.amount expense ≤ 0.

(** A document whose payer was found. *)
Definition fetched (e : Expense) : Fetched.t :=
  Fetched.mk (description e) (amount e) (category e) (Some (paidBy e))
             (participants e) (date e).

(** An expense whose payer has no user document. *)
Definition orphan : Fetched.t := Fetched.mk "orphan" (money 10) "Food" None [U1; U2] 5.

(** * Further vocabulary *)

(** ** The shape of the ledger *)

(** Some expense was paid by one of [a] and [c] with the other among its
    participants. *)
Definition linked (expenses : list Expense) (a c : string) : Prop :=
  ∃ e p, e ∈ expenses ∧ p ∈ participants e ∧
         ((_id (paidBy e) = c ∧ _id p = a) ∨ (_id (paidBy e) = a ∧ _id p = c)).

(** Every row of the ledger has an entry. *)
Definition rows_inhabited (b : Ledger) : Prop :=
  ∀ a row, Obj.get b a = Some row → row ≠ [].

(** ** The balance tab of the client *)

(** The properties of a [PaymentButton]. *)
Module PaymentButton.
Record t := mk {
  toUserId : string;
  amount : Qc;
  username : string
}.
End PaymentButton.

(** The buttons rendered by [balances.map]: one for each entry with
    [balance.owes]. *)
Definition paymentButtons (balances : list Entry.t) : list PaymentButton.t :=
  map (λ balance, PaymentButton.mk (_id (Entry.user balance)) (Entry.amount balance)
                                   (username (Entry.user balance)))
      (filter (λ balance, Entry.owes balance = true) balances).

(** ** The category statistics of [GET /api/stats] *)

(** A result document [{ _id: category, total, count }]. *)
Module ByCategory.
Record t := mk {
  _id : string;
  total : Qc;
  count : Z
}.
End ByCategory.

(** [$group] by ["$category"] with [{ $sum: "$amount" }] and
    [{ $sum: 1 }]. *)
Fixpoint category_add (c : string) (a : Qc) (groups : list ByCategory.t)
    : list ByCategory.t :=
  match groups with
  | [] => [ByCategory.mk c (0 + a) (0 + 1)]
  | g :: groups' =>
      if decide (ByCategory._id g = c)
      then ByCategory.mk c (ByCategory.total g + a) (ByCategory.count g + 1) :: groups'
      else g :: category_add c a groups'
  end.

(** The pipeline [$match, $group] of [expensesByCategory]. *)
Definition expensesByCategory (store : list Expense) (userId : string)
    : list ByCategory.t :=
  fold_left (λ groups e, category_add (category e) (amount e) groups)
            (filter (λ e, involves userId e) store) [].

(** The first group of a category. *)
Fixpoint category_find (c : string) (groups : list ByCategory.t) : option ByCategory.t :=
  match groups with
  | [] => None
  | g :: groups' => if decide (ByCategory._id g = c) then Some g else category_find c groups'
  end.

(** ** The participant check boxes of the client *)

(** [handleParticipantToggle] of the form [AddExpenseForm], as a function
    of the current selection. *)
Definition handleParticipantToggle (participants : list string) (userId : string)
    : list string :=
  if decide (userId ∈ participants)
  then filter (λ id, id ≠ userId) participants
  else participants ++ [userId].

(** The selection after a series of clicks on check boxes, from the
    initial state [[]]. *)
Definition selection (clicks : list string) : list string :=
  fold_left handleParticipantToggle clicks [].

(** How often [userId] was clicked. *)
Definition clicks_on (userId : string) (clicks : list string) : nat :=
  length (filter (λ id, id = userId) clicks).

(** ** [POST /api/expenses] *)

(** A value of a parsed JSON body. *)
Inductive JSON : Type :=
  | JNull
  | JBool (b : bool)
  | JNum (n : Qc)
  | JStr (s : string)
  | JArr (items : list JSON)
  | JObj (props : list (string * JSON)).

(** The truth value of a field of the body; [None] is [undefined]. *)
Definition truthy (v : option JSON) : bool :=
  match v with
  | None => false
  | Some JNull => false
  | Some (JBool b) => b
  | Some (JNum n) => bool_decide (n ≠ 0)
  | Some (JStr s) => bool_decide (s ≠ "")
  | Some (JArr _) => true
  | Some (JObj _) => true
  end.

(** [v.length === 0], for a [v] that is not [undefined] or [null]:
    arrays and strings have a length, an object has the property it was
    given, numbers and booleans have none. *)
Definition length_is_zero (v : option JSON) : bool :=
  match v with
  | Some (JArr items) => match items with [] => true | _ => false end
  | Some (JStr s) => bool_decide (s = "")
  | Some (JObj props) =>
      match Obj.get props "length" with
      | Some (JNum n) => bool_decide (n = 0)
      | _ => false
      end
  | _ => false
  end.

(** The fields the handler takes from [req.body]. *)
Module ExpenseBody.
Record t := mk {
  description : option JSON;
  amount : option JSON;
  category : option JSON;
  paidBy : option JSON;
  participants : option JSON
}.
End ExpenseBody.

(** The object given to [new Expense]. *)
Module NewExpense.
Record t := mk {
  description : option JSON;
  amount : Qc;
  category : string;
  paidBy : option JSON;
  participants : option JSON
}.
End NewExpense.

(** The answers of the handler: 201 with the document, here the object
    it was built from; 400 with a message; 500. *)
Inductive ExpenseResponse : Type :=
  | Created (expense : NewExpense.t)
  | BadRequest (message : string)
  | ServerFailure.

Section post_expense.
(** [String.prototype.trim], and whether [save] of the new document
    resolves (it rejects when the schema refuses the document). *)
Variable trim : string → string.
Variable save : NewExpense.t → bool.

(** [category && category.trim() !== '' ? category : "General"]: a value
    that is truthy and not a string has no [trim] to call. *)
Definition finalCategory (category : option JSON) : Result string :=
  if truthy category then
    match category with
    | Some (JStr s) => Ok (if decide (trim s ≠ "") then s else "General")
    | _ => TypeError
    end
  else Ok "General".

Definition post_expense (body : ExpenseBody.t) : ExpenseResponse :=
  let description := ExpenseBody.description body in
  let amount := ExpenseBody.amount body in
  let paidBy := ExpenseBody.paidBy body in
  let participants := ExpenseBody.participants body in
  if negb (truthy description) || negb (truthy amount) || negb (truthy paidBy)
     || negb (truthy participants) || length_is_zero participants
  then BadRequest "Please provide all required fields."
  else
    match amount with
    | Some (JNum n) =>
        if decide (n ≤ 0) then BadRequest "Amount must be a positive number."
        else
          match finalCategory (ExpenseBody.category body) with
          | Ok c =>
              let newExpense := NewExpense.mk description n c paidBy participants in
              if save newExpense then Created newExpense else ServerFailure
          | TypeError => ServerFailure
          end
    | _ => BadRequest "Amount must be a positive number."
    end.

End post_expense.

(** ** The middleware [authenticateToken] *)

(** [s.split(sep)] for a separator of one character. *)
Fixpoint split (sep : Ascii.ascii) (s : string) : list string :=
  match s with
  | EmptyString => [EmptyString]
  | String c s' =>
      if decide (c = sep) then EmptyString :: split sep s'
      else
        match split sep s' with
        | piece :: pieces => String c piece :: pieces
        | [] => [String c EmptyString]
        end
  end.

Fixpoint has_space (s : string) : bool :=
  match s with
  | EmptyString => false
  | String c s' => bool_decide (c = " "%char) || has_space s'
  end.

(** The payload of a token: [{ id, username }]. *)
Module Claims.
Record t := mk {
  id : string;
  username : string
}.
End Claims.

Inductive AuthOutcome : Type :=
  | Status401
  | Status403
  | Next (user : Claims.t).

(** [authHeader && authHeader.split(" ")[1]]: an empty header is its own
    (falsy) value. *)
Definition token_of (authHeader : option string) : option string :=
  match authHeader with
  | None => None
  | Some h => if decide (h = "") then Some "" else split " " h !! 1%nat
  end.

Section authenticate.
(** [jwt.verify] with the secret of the server: the payload of a valid
    token. *)
Variable verify : string → option Claims.t.

Definition authenticateToken (authorization : option string) : AuthOutcome :=
  match token_of authorization with
  | None => Status401
  | Some token =>
      if decide (token = "") then Status401
      else
        match verify token with
        | Some user => Next user
        | None => Status403
        end
  end.

End authenticate.

(** ** The bar charts of the statistics tab *)

(** [Math.max(...totals)]; [None] is the [-Infinity] of the empty
    list. *)
Fixpoint Math_max (totals : list Qc) : option Qc :=
  match totals with
  | [] => None
  | x :: totals' =>
      match Math_max totals' with
      | None => Some x
      | Some m => Some (if decide (m ≤ x) then x else m)
      end
  end.

(** The widths, in percent, of the bars of a chart:
    [(total / Math.max(...totals)) * 100] for each total.  The chart is
    rendered for a list that is not empty. *)
Definition bar_widths (totals : list Qc) : list Qc :=
  match Math_max totals with
  | Some m => map (λ total, total / m * Q2Qc (inject_Z 100)) totals
  | None => []
  end.

(** ** [POST /api/register] and [POST /api/login] *)

(** A document of the collection of users. *)
Module Account.
Record t := mk {
  _id : string;
  username : string;
  email : string;
  password : string;
  avatar : string;
  createdAt : Z
}.
End Account.

(** [{ id, username, email }], the user of a response. *)
Module UserInfo.
Record t := mk {
  id : string;
  username : string;
  email : string
}.
End UserInfo.

Inductive AuthResponse : Type :=
  | Registered (token : string) (user : UserInfo.t)
  | LoggedIn (token : string) (user : UserInfo.t)
  | Refused (message : string)
  | AuthFailure.

Section accounts.
(** [bcrypt.hash] of a password with a salt, [bcrypt.compare] of a
    password with a hash, [jwt.sign] with the secret of the server, and
    the validation of the schema on [save]. *)
Variable hash : string → string → string.
Variable compare : string → string → bool.
Variable sign : Claims.t → string.
Variable valid : Account.t → bool.

(** [User.findOne({ $or: [{ username }, { email }] })] *)
Definition find_taken (users : list Account.t) (username email : string)
    : option Account.t :=
  List.find (λ u, bool_decide (Account.username u = username)
                  || bool_decide (Account.email u = email)) users.

(** [User.findOne({ username })] *)
Definition find_username (users : list Account.t) (username : string)
    : option Account.t :=
  List.find (λ u, bool_decide (Account.username u = username)) users.

(** [save] of a new user: the schema validates the document and the
    unique indexes on [username] and [email] refuse a second one. *)
Definition save_user (users : list Account.t) (newUser : Account.t)
    : option (list Account.t) :=
  if valid newUser
     && bool_decide (Account.username newUser ∉ map Account.username users)
     && bool_decide (Account.email newUser ∉ map Account.email users)
  then Some (users ++ [newUser]) else None.

(** The handler of [POST /api/register] for a body of three strings;
    [salt] is the result of [bcrypt.genSalt], [newId] the identifier the
    database gives the document and [now] the time of the request.  The
    result is the response and the collection afterwards. *)
Definition register (users : list Account.t) (username email password : string)
    (salt newId : string) (now : Z) : AuthResponse * list Account.t :=
  match find_taken users username email with
  | Some existingUser => (Refused "Username or email already exists", users)
  | None =>
      let hashedPassword := hash password salt in
      let newUser := Account.mk newId username email hashedPassword "" now in
      match save_user users newUser with
      | Some users' =>
          let token := sign (Claims.mk (Account._id newUser) (Account.username newUser)) in
          (Registered token (UserInfo.mk (Account._id newUser) (Account.username newUser)
                                         (Account.email newUser)),
           users')
      | None => (AuthFailure, users)
      end
  end.

(** The handler of [POST /api/login] for a body of two strings. *)
Definition login (users : list Account.t) (username password : string) : AuthResponse :=
  match find_username users username with
  | None => Refused "Invalid credentials"
  | Some user =>
      if compare password (Account.password user) then
        LoggedIn (sign (Claims.mk (Account._id user) (Account.username user)))
                 (UserInfo.mk (Account._id user) (Account.username user)
                              (Account.email user))
      else Refused "Invalid credentials"
  end.

End accounts.

(** Sample accounts, with stand-ins for the libraries: the hash is the
    password itself and the token is the identifier. *)
Definition alice_account : Account.t :=
  Account.mk "id1" "alice" "alice@example.org" "pw1" "" 0.
Definition plain_hash (password salt : string) : string := password.
Definition plain_compare (password hashed : string) : bool :=
  bool_decide (password = hashed).
Definition id_token (payload : Claims.t) : string := Claims.id payload.
Definition any_valid (newUser : Account.t) : bool := true.

(** ** [GET /api/expenses] *)

(** An expense document as it is stored: users by reference. *)
Module Stored.
Record t := mk {
  _id : string;
  description : string;
  amount : Qc;
  category : string;
  paidBy : string;
  participants : list string;
  date : Z
}.
End Stored.

(** A user reference populated with ['username email']. *)
Module Member.
Record t := mk {
  _id : string;
  username : string;
  email : string
}.
End Member.

(** An expense document of the response. *)
Module Listed.
Record t := mk {
  _id : string;
  description : string;
  amount : Qc;
  category : string;
  paidBy : option Member.t;
  participants : list Member.t;
  date : Z
}.
End Listed.

#[global] Instance Member_eq_dec : EqDecision Member.t.
Proof. solve_decision. Defined.

#[global] Instance Listed_eq_dec : EqDecision Listed.t.
Proof. solve_decision. Defined.

(** The filter [{ $or: [{ paidBy: userId }, { participants: userId }] }]
    on a stored document. *)
Definition stored_involves (userId : string) (e : Stored.t) : bool :=
  bool_decide (Stored.paidBy e = userId)
  || bool_decide (userId ∈ Stored.participants e).

(** [populate(path, 'username email')] of one reference: the fields
    [_id], [username] and [email] of the user document with that
    identifier, [None] when there is none. *)
Definition populate_user (users : list Account.t) (id : string) : option Member.t :=
  (λ u, Member.mk (Account._id u) (Account.username u) (Account.email u))
    <$> List.find (λ u, bool_decide (Account._id u = id)) users.

(** Both [populate] calls on a document: a payer without user document
    becomes [null], such participants are left out of the array. *)
Definition populate_expense (users : list Account.t) (e : Stored.t) : Listed.t :=
  Listed.mk (Stored._id e) (Stored.description e) (Stored.amount e)
            (Stored.category e)
            (populate_user users (Stored.paidBy e))
            (omap (populate_user users) (Stored.participants e))
            (Stored.date e).

(** The order of [sort({ date: -1 })]. *)
Definition newer_first (e1 e2 : Stored.t) : Prop :=
  (Stored.date e2 ≤ Stored.date e1)%Z.

#[global] Instance newer_first_dec e1 e2 : Decision (newer_first e1 e2).
Proof. unfold newer_first. apply _. Defined.

(** The handler: the expenses of the user, newest first, with their
    users populated. *)
Definition expenses_handler (users : list Account.t) (store : list Stored.t)
    (userId : string) : list Listed.t :=
  map (populate_expense users)
      (merge_sort newer_first (filter (λ e, stored_involves userId e) store)).



(** A second account, and three stored expenses: two of the first
    account, and one with a participant that has no user document. *)
Definition bob_account : Account.t :=
  Account.mk "id2" "bob" "bob@example.org" "pw2" "" 1.

Definition stored_expenses : list Stored.t :=
  [Stored.mk "e1" "dinner" (money 100) "Food" "id1" ["id1"; "id2"] 10;
   Stored.mk "e2" "taxi" (money 60) "Travel" "id2" ["id1"; "id2"] 20;
   Stored.mk "e3" "gift" (money 7) "Gifts" "id2" ["id2"; "id9"] 30].

(** * Properties *)

(** ** Dictionaries *)

Module ObjFacts.
Import Obj.

Section with_values.
Context {V : Type}.
Implicit Types (o : t V) (k : string) (v : V).

Lemma get_set o k v k' :
  get (set o k v) k' = if decide (k = k') then Some v else get o k'.
Proof.
  induction o as [|[k0 v0] o IH]; simpl.
  - done.
  - destruct (decide (k0 = k)) as [->|Hk0]; simpl.
    + destruct (decide (k = k')); done.
    + rewrite IH. destruct (decide (k0 = k')) as [->|]; [|done].
      by rewrite decide_False.
Qed.

Lemma get_set_eq o k v : get (set o k v) k = Some v.
Proof. rewrite get_set. by rewrite decide_True. Qed.

Lemma get_set_ne o k v k' : k ≠ k' → get (set o k v) k' = get o k'.
Proof. intros. rewrite get_set. by rewrite decide_False. Qed.

Lemma get_None o k : get o k = None ↔ k ∉ keys o.
Proof.
  unfold keys. induction o as [|[k0 v0] o IH]; simpl.
  - split; [intros _; apply not_elem_of_nil | done].
  - rewrite not_elem_of_cons. destruct (decide (k0 = k)) as [->|]; naive_solver.
Qed.

Lemma get_Some_keys o k v : get o k = Some v → k ∈ keys o.
Proof.
  intros H. destruct (decide (k ∈ keys o)) as [|Hn]; [done|].
  apply get_None in Hn. congruence.
Qed.

Lemma keys_get o k : k ∈ keys o → is_Some (get o k).
Proof.
  intros H. destruct (get o k) eqn:E; [by eexists|].
  by apply get_None in E.
Qed.

Lemma get_elem_of o k v : get o k = Some v → (k, v) ∈ o.
Proof.
  induction o as [|[k0 v0] o IH]; simpl; [done|].
  destruct (decide (k0 = k)) as [->|].
  - intros [= ->]. apply list_elem_of_here.
  - intros. apply list_elem_of_further. auto.
Qed.

Lemma set_present o k v : k ∈ keys o → keys (set o k v) = keys o.
Proof.
  unfold keys. induction o as [|[k0 v0] o IH]; simpl.
  - intros H. by apply elem_of_nil in H.
  - destruct (decide (k0 = k)) as [->|Hne]; simpl; [done|].
    intros [?|?]%elem_of_cons; [congruence|]. f_equal. auto.
Qed.

Lemma set_absent o k v : k ∉ keys o → set o k v = o ++ [(k, v)].
Proof.
  unfold keys. induction o as [|[k0 v0] o IH]; simpl; [done|].
  rewrite not_elem_of_cons. intros [? ?].
  rewrite decide_False by done. f_equal. auto.
Qed.

Lemma set_same o k v : get o k = Some v → set o k v = o.
Proof.
  induction o as [|[k0 v0] o IH]; simpl; [done|].
  destruct (decide (k0 = k)) as [->|]; [by intros [= ->]|].
  intros. f_equal. auto.
Qed.

Lemma keys_set_prefix o k v : keys o `prefix_of` keys (set o k v).
Proof.
  destruct (decide (k ∈ keys o)) as [Hin|Hout].
  - by rewrite set_present.
  - rewrite set_absent by done. unfold keys. rewrite map_app.
    by apply prefix_app_r.
Qed.

Lemma keys_set_elem o k v k' : k' ∈ keys (set o k v) ↔ k' = k ∨ k' ∈ keys o.
Proof.
  destruct (decide (k ∈ keys o)) as [Hin|Hout].
  - rewrite set_present by done. naive_solver.
  - rewrite set_absent by done. unfold keys. rewrite map_app, elem_of_app. simpl.
    rewrite list_elem_of_singleton. naive_solver.
Qed.

Lemma keys_set_NoDup o k v : NoDup (keys o) → NoDup (keys (set o k v)).
Proof.
  intros Hnd. destruct (decide (k ∈ keys o)) as [Hin|Hout].
  - by rewrite set_present.
  - rewrite set_absent by done. unfold keys. rewrite map_app. simpl.
    apply NoDup_app. split_and!; [done| |apply NoDup_singleton].
    intros x Hx ->%list_elem_of_singleton. done.
Qed.

End with_values.
End ObjFacts.

(** ** The ledger after the accumulation phase *)

Section accumulation.
Import Obj ObjFacts.
Implicit Types (b balances : Ledger) (e : Expense) (p : User).

Lemma fold_left_invariant {A B : Type} (P : A → Prop) (f : A → B → A) (l : list B) (a : A) :
  P a → (∀ a x, x ∈ l → P a → P (f a x)) → P (fold_left f l a).
Proof.
  revert a. induction l as [|x l IH]; simpl; intros a Ha Hf; [done|].
  apply IH.
  - apply Hf; [apply list_elem_of_here | done].
  - intros a' x' Hx'. apply Hf. by apply list_elem_of_further.
Qed.

Lemma get_or_empty b a c : get (or_empty (get b a)) c = get2 b a c.
Proof. unfold get2. by destruct (get b a). Qed.

(** The rows of the ledger after one participant has been processed. *)
Lemma get_participant_step payer s b p k :
  payer ≠ _id p →
  get (participant_step payer s b p) k =
    if decide (payer = k) then
      Some (set (or_empty (get b payer)) (_id p) (or_zero (get2 b payer (_id p)) - s))
    else if decide (_id p = k) then
      Some (set (or_empty (get b (_id p))) payer (or_zero (get2 b (_id p) payer) + s))
    else get b k.
Proof.
  intros Hne. unfold participant_step. rewrite decide_True by done. cbv zeta.
  rewrite !get_set_eq. simpl.
  rewrite (get_set_ne _ (_id p) _ payer) by done.
  rewrite (get_set_ne _ (_id p) _ payer) by done.
  rewrite !get_or_empty.
  rewrite !get_set.
  destruct (decide (payer = k)); [done|].
  destruct (decide (_id p = k)); done.
Qed.

Lemma participant_step_self payer s b p :
  payer = _id p → participant_step payer s b p = b.
Proof. intros H. unfold participant_step. by rewrite decide_False by naive_solver. Qed.

(** The entries of the ledger after one participant has been processed. *)
Lemma get2_participant_step payer s b p a c :
  payer ≠ _id p →
  get2 (participant_step payer s b p) a c =
    if decide (a = payer ∧ c = _id p) then Some (or_zero (get2 b payer (_id p)) - s)
    else if decide (a = _id p ∧ c = payer) then Some (or_zero (get2 b (_id p) payer) + s)
    else get2 b a c.
Proof.
  intros Hne. unfold get2 at 1. rewrite get_participant_step by done.
  destruct (decide (payer = a)) as [<-|Hpa]; simpl.
  - rewrite get_set, get_or_empty.
    destruct (decide (_id p = c)) as [<-|Hc].
    + by rewrite decide_True.
    + rewrite decide_False by naive_solver. by rewrite decide_False by naive_solver.
  - rewrite (decide_False (P := a = payer ∧ _)) by naive_solver.
    destruct (decide (_id p = a)) as [<-|Hia]; simpl.
    + rewrite get_set, get_or_empty.
      destruct (decide (payer = c)) as [<-|Hc].
      * by rewrite decide_True.
      * by rewrite decide_False by naive_solver.
    + by rewrite decide_False by naive_solver.
Qed.

Lemma or_zero_opp (x : option Qc) : or_zero (Qcopp <$> x) = - or_zero x.
Proof. destruct x; simpl; [done | ring]. Qed.

Lemma participant_step_irreflexive payer s b p :
  irreflexive_ledger b → irreflexive_ledger (participant_step payer s b p).
Proof.
  intros Hb a. destruct (decide (payer = _id p)) as [Heq|Hne].
  - by rewrite participant_step_self.
  - rewrite get2_participant_step by done.
    rewrite decide_False by naive_solver. by rewrite decide_False by naive_solver.
Qed.

Lemma participant_step_antisymmetric payer s b p :
  antisymmetric_ledger b → antisymmetric_ledger (participant_step payer s b p).
Proof.
  intros Hb a c. destruct (decide (payer = _id p)) as [Heq|Hne].
  - by rewrite participant_step_self.
  - rewrite !get2_participant_step by done.
    destruct (decide (a = payer ∧ c = _id p)) as [[-> ->]|H1].
    + rewrite decide_False by naive_solver. rewrite decide_True by done.
      simpl. f_equal. rewrite (Hb payer (_id p)), or_zero_opp. ring.
    + destruct (decide (a = _id p ∧ c = payer)) as [[-> ->]|H2].
      * rewrite decide_True by done. simpl. f_equal.
        rewrite (Hb (_id p) payer), or_zero_opp. ring.
      * rewrite decide_False by naive_solver. rewrite decide_False by naive_solver.
        apply Hb.
Qed.

Lemma accumulate_invariant (P : Ledger → Prop) :
  P empty →
  (∀ payer s b p, P b → P (participant_step payer s b p)) →
  ∀ expenses, P (accumulate expenses).
Proof.
  intros H0 Hstep expenses. unfold accumulate.
  apply fold_left_invariant; [done|]. intros b e _ Hb.
  unfold expense_step. apply fold_left_invariant; [done|]. intros; by apply Hstep.
Qed.

Lemma accumulate_irreflexive expenses : irreflexive_ledger (accumulate expenses).
Proof.
  apply accumulate_invariant; [done|]. apply participant_step_irreflexive.
Qed.

Lemma accumulate_antisymmetric expenses : antisymmetric_ledger (accumulate expenses).
Proof.
  apply accumulate_invariant; [done|]. apply participant_step_antisymmetric.
Qed.

End accumulation.

(** ** Loops that may throw *)

Section forEach.
Context {K S : Type}.
Implicit Types (body : S → K → Result S) (ks : list K) (r : Result S).

Lemma forEach_nil body r : forEach body [] r = r.
Proof. done. Qed.

Lemma forEach_cons body k ks r :
  forEach body (k :: ks) r = forEach body ks (r ≫= λ s, body s k).
Proof. done. Qed.

Lemma forEach_app body ks1 ks2 r :
  forEach body (ks1 ++ ks2) r = forEach body ks2 (forEach body ks1 r).
Proof. unfold forEach. apply fold_left_app. Qed.

Lemma forEach_TypeError body ks : forEach body ks TypeError = TypeError.
Proof. induction ks as [|k ks IH]; [done|]. by rewrite forEach_cons. Qed.

Lemma forEach_ext body body' ks r :
  (∀ s k, k ∈ ks → body s k = body' s k) →
  forEach body ks r = forEach body' ks r.
Proof.
  revert r. induction ks as [|k ks IH]; intros r H; [done|].
  rewrite !forEach_cons.
  replace (r ≫= λ s, body' s k) with (r ≫= λ s, body s k).
  - apply IH. intros s k' Hk'. apply H. by apply list_elem_of_further.
  - destruct r as [s|]; simpl; [|done]. apply H. apply list_elem_of_here.
Qed.

Lemma forEach_skip body ks r :
  (∀ s k, k ∈ ks → body s k = Ok s) → forEach body ks r = r.
Proof.
  revert r. induction ks as [|k ks IH]; intros r H; [done|].
  rewrite forEach_cons.
  replace (r ≫= λ s, body s k) with r.
  - apply IH. intros s k' Hk'. apply H. by apply list_elem_of_further.
  - destruct r as [s|]; simpl; [|done]. symmetry. apply H. apply list_elem_of_here.
Qed.

(** A loop none of whose iterations throws returns, and keeps what
    every iteration keeps. *)
Lemma forEach_Ok (P : S → Prop) body ks s :
  P s →
  (∀ s k, k ∈ ks → P s → ∃ s', body s k = Ok s' ∧ P s') →
  ∃ s', forEach body ks (Ok s) = Ok s' ∧ P s'.
Proof.
  revert s. induction ks as [|k ks IH]; intros s Hs H.
  - by exists s.
  - rewrite forEach_cons. simpl.
    destruct (H s k) as (s' & -> & Hs'); [apply list_elem_of_here | done |].
    apply IH; [done|]. intros s0 k' Hk'. apply H. by apply list_elem_of_further.
Qed.

End forEach.

(** ** Recovering the user object of a counterparty *)

Section lookup.
Import Obj ObjFacts.
Implicit Types (b : Ledger) (e : Expense) (p : User) (k : string).

Lemma is_user_true k p : is_user k p = true ↔ _id p = k.
Proof. unfold is_user. apply bool_decide_eq_true. Qed.

Lemma involves_payer e : involves (_id (paidBy e)) e = true.
Proof.
  unfold involves, paid_by. apply orb_true_iff. left. by apply is_user_true.
Qed.

Lemma involves_participant e p : p ∈ participants e → involves (_id p) e = true.
Proof.
  intros Hp. unfold involves. apply orb_true_iff. right.
  apply existsb_exists. exists p. split; [by apply list_elem_of_In | by apply is_user_true].
Qed.

Lemma mentioned_app_l expenses more k :
  mentioned expenses k → mentioned (expenses ++ more) k.
Proof. intros (e & He & Hk). exists e. split; [|done]. apply elem_of_app. by left. Qed.

(** The lookup succeeds for every identifier that occurs in the list, and
    returns a user object with that identifier. *)
Lemma find_user_Ok expenses k :
  mentioned expenses k → ∃ u, find_user expenses k = Ok u ∧ _id u = k.
Proof.
  intros (e0 & He0 & Hk). unfold find_user.
  destruct (List.find (involves k) expenses) as [e|] eqn:Hfind.
  - apply find_some in Hfind as [He Hinv].
    destruct (List.find (is_user k) (participants e)) as [p|] eqn:Hp.
    + apply find_some in Hp as [_ Hp]. exists p. split; [done|]. by apply is_user_true.
    + assert (paid_by k e = true) as Hpaid.
      { unfold involves in Hinv. apply orb_true_iff in Hinv as [?|Hex]; [done|].
        apply existsb_exists in Hex as (p & Hin & Hp').
        by rewrite (find_none _ _ Hp p Hin) in Hp'. }
      destruct (List.find (paid_by k) expenses) as [e'|] eqn:Hfind'.
      * apply find_some in Hfind' as [_ Hpaid']. exists (paidBy e'). split; [done|].
        by apply is_user_true.
      * by rewrite (find_none _ _ Hfind' e He) in Hpaid.
  - apply list_elem_of_In in He0. by rewrite (find_none _ _ Hfind e0 He0) in Hk.
Qed.

(** Appending expenses does not change the result of a successful lookup. *)
Lemma find_app_Some {A} (f : A → bool) (l l' : list A) x :
  List.find f l = Some x → List.find f (l ++ l') = Some x.
Proof.
  induction l as [|y l IH]; simpl; [done|]. destruct (f y); [done|]. apply IH.
Qed.

Lemma find_user_app expenses more k :
  mentioned expenses k → find_user (expenses ++ more) k = find_user expenses k.
Proof.
  intros (e0 & He0 & Hk). unfold find_user.
  destruct (List.find (involves k) expenses) as [e|] eqn:Hfind.
  - rewrite (find_app_Some _ _ _ _ Hfind).
    destruct (List.find (is_user k) (participants e)) as [p|] eqn:Hp; [done|].
    apply find_some in Hfind as [He Hinv].
    assert (paid_by k e = true) as Hpaid.
    { unfold involves in Hinv. apply orb_true_iff in Hinv as [?|Hex]; [done|].
      apply existsb_exists in Hex as (p & Hin & Hp').
      by rewrite (find_none _ _ Hp p Hin) in Hp'. }
    destruct (List.find (paid_by k) expenses) as [e'|] eqn:Hfind'.
    + by rewrite (find_app_Some _ _ _ _ Hfind').
    + by rewrite (find_none _ _ Hfind' e He) in Hpaid.
  - apply list_elem_of_In in He0. by rewrite (find_none _ _ Hfind e0 He0) in Hk.
Qed.

(** Induction over the accumulation that remembers where each step
    comes from. *)
Lemma accumulate_invariant_in (P : Ledger → Prop) expenses :
  P empty →
  (∀ e p b, e ∈ expenses → p ∈ participants e → P b →
     P (participant_step (_id (paidBy e)) (amountPerPerson e) b p)) →
  P (accumulate expenses).
Proof.
  intros H0 Hstep. unfold accumulate.
  apply fold_left_invariant; [done|]. intros b e He Hb.
  unfold expense_step. apply fold_left_invariant; [done|]. intros; by apply Hstep.
Qed.

Lemma accumulate_within expenses : ledger_within expenses (accumulate expenses).
Proof.
  apply accumulate_invariant_in.
  - split.
    + intros k Hk. by apply elem_of_nil in Hk.
    + intros a c [? [=]].
  - intros e p b He Hp [Hrows Hcols].
    assert (mentioned expenses (_id (paidBy e))) as Hpayer
      by (exists e; split; [done | apply involves_payer]).
    assert (mentioned expenses (_id p)) as Hpart
      by (exists e; split; [done | by apply involves_participant]).
    destruct (decide (_id (paidBy e) = _id p)) as [Heq|Hne].
    { by rewrite participant_step_self. }
    split.
    + intros k Hk%keys_get. rewrite get_participant_step in Hk by done.
      destruct (decide (_id (paidBy e) = k)) as [<-|]; [done|].
      destruct (decide (_id p = k)) as [<-|]; [done|].
      apply Hrows. destruct Hk as [row Hrow]. by eapply get_Some_keys.
    + intros a c. rewrite get2_participant_step by done.
      destruct (decide (a = _id (paidBy e) ∧ c = _id p)) as [[-> ->]|]; [done|].
      destruct (decide (a = _id p ∧ c = _id (paidBy e))) as [[-> ->]|]; [done|].
      apply Hcols.
Qed.

End lookup.

(** ** The formatting phase never throws *)

Section formatting.
Import Obj ObjFacts.
Implicit Types (b : Ledger) (x : Entry.t) (out : list Entry.t).

Lemma owes_body_Ok expenses b userId out otherUserId :
  ledger_within expenses b → irreflexive_ledger b →
  otherUserId ∈ keys (or_empty (get b userId)) →
  Forall (debt_entry b userId) out →
  ∃ out', owes_body expenses b userId out otherUserId = Ok out' ∧
          Forall (debt_entry b userId) out'.
Proof.
  intros [_ Hcols] Hirr Hk Hout. unfold owes_body.
  destruct (get b userId) as [row|] eqn:Hrow; simpl in Hk.
  2: { by apply elem_of_nil in Hk. }
  destruct (get row otherUserId) as [amount|] eqn:Hamount; [|by exists out].
  destruct (decide (0 < amount)) as [Hpos|]; [|by exists out].
  assert (get2 b userId otherUserId = Some amount) as Hget2.
  { unfold get2. by rewrite Hrow. }
  destruct (find_user_Ok expenses otherUserId) as (u & -> & Hu).
  { apply (Hcols userId). by rewrite Hget2. }
  simpl. eexists. split; [done|].
  apply Forall_app. split; [done|]. apply Forall_singleton.
  unfold debt_entry. simpl. rewrite Hu. split_and!; [|done..].
  intros ->. by rewrite Hirr in Hget2.
Qed.

Lemma owed_body_Ok expenses b userId out otherUserId :
  ledger_within expenses b → antisymmetric_ledger b →
  otherUserId ∈ keys b →
  Forall (debt_entry b userId) out →
  ∃ out', owed_body expenses b userId out otherUserId = Ok out' ∧
          Forall (debt_entry b userId) out'.
Proof.
  intros [Hrows _] Hanti Hk Hout. unfold owed_body.
  destruct (decide (otherUserId ≠ userId)) as [Hne|]; [|by exists out].
  destruct (keys_get _ _ Hk) as [row Hrow]. rewrite Hrow.
  destruct (get row userId) as [x|] eqn:Hx; [|by exists out].
  destruct (decide (x ≠ 0)); [|by exists out]. cbv zeta.
  destruct (decide (0 < - x)) as [Hpos|]; [|by exists out].
  destruct (find_user_Ok expenses otherUserId) as (u & -> & Hu).
  { by apply Hrows. }
  simpl. eexists. split; [done|].
  apply Forall_app. split; [done|]. apply Forall_singleton.
  unfold debt_entry. simpl. rewrite Hu. split_and!; [done..|].
  rewrite (Hanti otherUserId userId).
  unfold get2. rewrite Hrow. simpl. by rewrite Hx.
Qed.

(** The engine returns a list for every input, and every entry of the
    list, whatever its direction, stands for a positive ledger entry of
    the requesting user against the counterparty. *)
Lemma computeBalances_Ok userId expenses :
  ∃ out, computeBalances userId expenses = Ok out ∧
         Forall (debt_entry (accumulate expenses) userId) out.
Proof.
  unfold computeBalances, formatBalances. cbv zeta.
  pose proof (accumulate_within expenses) as Hin.
  pose proof (accumulate_irreflexive expenses) as Hirr.
  pose proof (accumulate_antisymmetric expenses) as Hanti.
  destruct (forEach_Ok (Forall (debt_entry (accumulate expenses) userId))
              (owes_body expenses (accumulate expenses) userId)
              (keys (or_empty (get (accumulate expenses) userId))) [])
    as (out1 & -> & Hout1).
  { constructor. }
  { intros s k Hk Hs. by apply owes_body_Ok. }
  apply forEach_Ok; [done|]. intros s k Hk Hs. by apply owed_body_Ok.
Qed.

(** *** Expenses that leave the view of a user alone *)

Lemma accumulate_snoc expenses e :
  accumulate (expenses ++ [e]) = expense_step (accumulate expenses) e.
Proof. unfold accumulate. by rewrite fold_left_app. Qed.

Lemma participant_step_keys_prefix payer s b p :
  keys b `prefix_of` keys (participant_step payer s b p).
Proof.
  unfold participant_step. destruct (decide (payer ≠ _id p)); [|done]. cbv zeta.
  repeat (etrans; [|apply keys_set_prefix]). done.
Qed.

Lemma participant_step_keys_NoDup payer s b p :
  NoDup (keys b) → NoDup (keys (participant_step payer s b p)).
Proof.
  intros Hb. unfold participant_step. destruct (decide (payer ≠ _id p)); [|done].
  cbv zeta. by repeat apply keys_set_NoDup.
Qed.

Lemma accumulate_keys_NoDup expenses : NoDup (keys (accumulate expenses)).
Proof.
  apply accumulate_invariant; [apply NoDup_nil_2|]. apply participant_step_keys_NoDup.
Qed.

Lemma expense_step_invariant (P : Ledger → Prop) b e :
  P b →
  (∀ b p, p ∈ participants e → P b →
     P (participant_step (_id (paidBy e)) (amountPerPerson e) b p)) →
  P (expense_step b e).
Proof. intros Hb Hstep. unfold expense_step. by apply fold_left_invariant. Qed.

(** The second loop only reads the column of the requesting user. *)
Lemma owed_body_get2 expenses b userId out k :
  k ∈ keys b →
  owed_body expenses b userId out k =
    if decide (k ≠ userId) then
      match get2 b k userId with
      | Some x =>
          if decide (x ≠ 0) then
            if decide (0 < - x) then
              user ← find_user expenses k;
              Ok (out ++ [Entry.mk false (- x) user])
            else Ok out
          else Ok out
      | None => Ok out
      end
    else Ok out.
Proof.
  intros [row Hrow]%keys_get. unfold owed_body, get2. by rewrite Hrow.
Qed.

(** Formatting gives the same list after the input has grown, provided
    the row and the column of the requesting user are unchanged. *)
Lemma formatBalances_grow userId expenses more b b' :
  ledger_within expenses b →
  NoDup (keys b') →
  get b' userId = get b userId →
  keys b `prefix_of` keys b' →
  (∀ k, get2 b' k userId = get2 b k userId) →
  formatBalances userId (expenses ++ more) b' = formatBalances userId expenses b.
Proof.
  intros [Hrows Hcols] Hnd Hrow [extra Hkeys] Hcol. unfold formatBalances. cbv zeta.
  rewrite Hrow.
  rewrite (forEach_ext (owes_body (expenses ++ more) b' userId)
                       (owes_body expenses b userId)).
  2: { intros out k Hk. unfold owes_body. rewrite Hrow.
       destruct (get b userId) as [row|] eqn:Hr; [|done].
       destruct (get row k) as [amount|] eqn:Hamount; [|done].
       destruct (decide (0 < amount)); [|done].
       rewrite find_user_app; [done|]. apply (Hcols userId).
       unfold get2. rewrite Hr. simpl. by rewrite Hamount. }
  rewrite Hkeys, forEach_app.
  rewrite (forEach_skip _ extra).
  2: { intros out k Hk. rewrite owed_body_get2.
       2: { rewrite Hkeys. apply elem_of_app. by right. }
       rewrite Hcol.
       assert (k ∉ keys b) as Hout.
       { rewrite Hkeys in Hnd. apply NoDup_app in Hnd as (_ & Hdisj & _).
         intros Hin. by apply (Hdisj k). }
       unfold get2. apply get_None in Hout. rewrite Hout. simpl.
       by destruct (decide (k ≠ userId)). }
  apply forEach_ext. intros out k Hk.
  rewrite !owed_body_get2; [|done|rewrite Hkeys; apply elem_of_app; by left].
  rewrite Hcol.
  destruct (decide (k ≠ userId)); [|done].
  destruct (get2 b k userId) as [x|]; [|done].
  destruct (decide (x ≠ 0)); [|done].
  destruct (decide (0 < - x)); [|done].
  rewrite find_user_app; [done|]. by apply Hrows.
Qed.

End formatting.

(** ** Conservation *)

Section conservation.
Import Obj ObjFacts.
Implicit Types (b : Ledger) (row : Obj.t Qc).

Lemma sumQc_app l1 l2 : sumQc (l1 ++ l2) = sumQc l1 + sumQc l2.
Proof. induction l1 as [|x l1 IH]; simpl; [ring|]. rewrite IH. ring. Qed.

Lemma sumQc_Permutation l1 l2 : l1 ≡ₚ l2 → sumQc l1 = sumQc l2.
Proof.
  induction 1 as [|x l1 l2 _ IH|x y l|l1 l2 l3 _ IH1 _ IH2]; simpl.
  - done.
  - by rewrite IH.
  - ring.
  - by rewrite IH1.
Qed.

Lemma sumQc_zero {A} (f : A → Qc) (l : list A) :
  (∀ x, x ∈ l → f x = 0) → sumQc (map f l) = 0.
Proof.
  induction l as [|x l IH]; simpl; intros H; [done|].
  rewrite H by apply list_elem_of_here.
  rewrite IH; [ring|]. intros y Hy. apply H. by apply list_elem_of_further.
Qed.

Lemma wsum_set {V} (w : V → Qc) (o : Obj.t V) k v :
  wsum w (set o k v) = wsum w o - default 0 (w <$> get o k) + w v.
Proof.
  unfold wsum. induction o as [|[k0 v0] o IH]; simpl.
  - ring.
  - destruct (decide (k0 = k)) as [->|]; simpl.
    + ring.
    + rewrite IH. ring.
Qed.

Lemma row_sum_or_empty b a :
  default 0 (row_sum <$> get b a) = row_sum (or_empty (get b a)).
Proof. by destruct (get b a). Qed.

Lemma grand_total_touch b a :
  grand_total (set b a (or_empty (get b a))) = grand_total b.
Proof. unfold grand_total. rewrite wsum_set, row_sum_or_empty. ring. Qed.

Lemma grand_total_entry b a c x :
  grand_total (set b a (set (or_empty (get b a)) c x))
  = grand_total b - or_zero (get2 b a c) + x.
Proof.
  unfold grand_total. rewrite wsum_set, row_sum_or_empty.
  unfold row_sum at 3. rewrite wsum_set. fold (row_sum (or_empty (get b a))).
  rewrite get_or_empty. unfold or_zero.
  destruct (get2 b a c); simpl; unfold id; ring.
Qed.

Lemma participant_step_raise payer s b p :
  payer ≠ _id p →
  participant_step payer s b p
  = raise_entry (raise_entry b (_id p) payer s) payer (_id p) (- s).
Proof. intros Hne. unfold participant_step. by rewrite decide_True. Qed.

Lemma raise_entry_grand_total b a c delta :
  grand_total (raise_entry b a c delta) = grand_total b + delta.
Proof.
  unfold raise_entry. cbv zeta.
  rewrite get_or_empty, grand_total_entry, grand_total_touch. ring.
Qed.

Lemma participant_step_grand_total payer s b p :
  grand_total (participant_step payer s b p) = grand_total b.
Proof.
  destruct (decide (payer = _id p)) as [Heq|Hne].
  - by rewrite participant_step_self.
  - rewrite participant_step_raise by done.
    rewrite !raise_entry_grand_total. ring.
Qed.

Lemma accumulate_grand_total expenses : grand_total (accumulate expenses) = 0.
Proof.
  apply accumulate_invariant; [done|]. intros payer s b p Hb.
  by rewrite participant_step_grand_total.
Qed.

(** A net position is the negated sum of the user's row. *)
Lemma signed_parts (l : list Qc) :
  sumQc (map Qcopp (filter (λ v, v < 0) l)) - sumQc (filter (λ v, 0 < v) l) = - sumQc l.
Proof.
  induction l as [|v l IH]; simpl; [ring|].
  apply (f_equal Qcopp) in IH. rewrite Qcopp_involutive in IH.
  rewrite !filter_cons, <- IH.
  destruct (decide (v < 0)) as [Hneg|Hnneg], (decide (0 < v)) as [Hpos|Hnpos]; simpl.
  - exfalso. apply (irreflexivity Qclt 0). by etrans.
  - ring.
  - ring.
  - assert (v = 0) as ->; [|ring].
    apply Qcle_antisym; by apply Qcnot_lt_le.
Qed.

Lemma net_position_row b u :
  net_position b u = - row_sum (or_empty (get b u)).
Proof.
  unfold net_position, owed_total, owes_total. rewrite signed_parts.
  reflexivity.
Qed.

Lemma net_position_absent b u : u ∉ keys b → net_position b u = 0.
Proof. intros Hu%get_None. rewrite net_position_row, Hu. done. Qed.

Lemma sumQc_map_opp {A} (f : A → Qc) (l : list A) :
  sumQc (map (λ x, - f x) l) = - sumQc (map f l).
Proof. induction l as [|x l IH]; simpl; [ring|]. rewrite IH. ring. Qed.

Lemma map_get_keys {V} (o : Obj.t V) :
  NoDup (keys o) → map (get o) (keys o) = map (λ kv, Some kv.2) o.
Proof.
  unfold keys. induction o as [|[k0 v0] o IH]; simpl; [done|].
  intros [Hk0 Hnd]%NoDup_cons. rewrite decide_True by done. f_equal.
  rewrite <- IH by done. apply map_ext_in. intros k Hk%list_elem_of_In.
  rewrite decide_False; [done|]. by intros ->.
Qed.

Lemma sum_net_position_keys b :
  NoDup (keys b) → sumQc (map (net_position b) (keys b)) = - grand_total b.
Proof.
  intros Hnd.
  rewrite (map_ext _ (λ u, - row_sum (or_empty (get b u)))) by apply net_position_row.
  rewrite sumQc_map_opp. f_equal. unfold grand_total, wsum. f_equal.
  trans (map (λ r, row_sum (or_empty r)) (map (get b) (keys b))).
  - by rewrite map_map.
  - rewrite map_get_keys by done. by rewrite map_map.
Qed.

(** Users outside the ledger have position zero, so the sum may range
    over any duplicate-free list that covers the ledger. *)
Lemma sum_net_position_cover b (users : list string) :
  NoDup (keys b) → NoDup users → (∀ k, k ∈ keys b → k ∈ users) →
  sumQc (map (net_position b) users) = - grand_total b.
Proof.
  intros Hb Hu Hcover.
  destruct (submseteq_Permutation (keys b) users) as [rest Hperm].
  { by apply NoDup_submseteq. }
  rewrite (sumQc_Permutation _ (map (net_position b) (keys b ++ rest))).
  2: { by apply Permutation_map. }
  rewrite map_app, sumQc_app, sum_net_position_keys by done.
  rewrite sumQc_zero; [ring|]. intros k Hk. apply net_position_absent.
  rewrite Hperm in Hu. apply NoDup_app in Hu as (_ & Hdisj & _).
  intros Hin. by apply (Hdisj k).
Qed.

Lemma mentioned_all_users expenses k : mentioned expenses k → k ∈ all_users expenses.
Proof.
  intros (e & He & Hk). unfold all_users. apply elem_of_remove_dups.
  apply list_elem_of_In, in_flat_map. exists e. split; [by apply list_elem_of_In|].
  unfold involves in Hk. apply orb_true_iff in Hk as [Hk|Hk].
  - left. by apply is_user_true.
  - right. apply existsb_exists in Hk as (p & Hp & Hk%is_user_true).
    apply in_map_iff. by exists p.
Qed.

End conservation.

(** ** Monthly statistics *)

Section stats_facts.
Variables dateYear dateMonth : Z → Z.
Implicit Types (k : Monthly.key) (g : Monthly.t) (groups : list Monthly.t).

Lemma total_of_group_add k a groups k' :
  total_of k' (group_add k a groups) =
    if decide (k = k') then Some (default 0 (total_of k groups) + a)
    else total_of k' groups.
Proof.
  induction groups as [|g groups IH]; simpl.
  - destruct (decide (k = k')); done.
  - destruct (decide (Monthly._id g = k)) as [Hg|Hg]; simpl.
    + destruct (decide (k = k')) as [->|]; [done|].
      by rewrite decide_False by congruence.
    + rewrite IH. destruct (decide (k = k')) as [<-|]; [|done].
      by rewrite decide_False.
Qed.

Lemma group_add_ids k a groups k' :
  k' ∈ map Monthly._id (group_add k a groups) ↔ k' = k ∨ k' ∈ map Monthly._id groups.
Proof.
  induction groups as [|g groups IH]; simpl.
  - rewrite list_elem_of_singleton. split; [by left|]. intros [?|H]; [done|].
    by apply elem_of_nil in H.
  - destruct (decide (Monthly._id g = k)) as [Hg|Hg]; simpl.
    + rewrite !elem_of_cons, Hg. naive_solver.
    + rewrite !elem_of_cons, IH. naive_solver.
Qed.

Lemma group_add_NoDup k a groups :
  NoDup (map Monthly._id groups) → NoDup (map Monthly._id (group_add k a groups)).
Proof.
  induction groups as [|g groups IH]; simpl.
  - intros _. apply NoDup_singleton.
  - intros [Hg Hnd]%NoDup_cons.
    destruct (decide (Monthly._id g = k)) as [Heq|Hne]; simpl.
    + apply NoDup_cons. by rewrite <- Heq.
    + apply NoDup_cons. split; [|by apply IH].
      rewrite group_add_ids. naive_solver.
Qed.

Lemma total_of_elem g groups :
  NoDup (map Monthly._id groups) → g ∈ groups →
  total_of (Monthly._id g) groups = Some (Monthly.total g).
Proof.
  induction groups as [|g0 groups IH]; simpl.
  - intros _ H. by apply elem_of_nil in H.
  - intros [Hg0 Hnd]%NoDup_cons [->|Hin]%elem_of_cons.
    + by rewrite decide_True.
    + rewrite decide_False; [by apply IH|].
      intros Heq. apply Hg0. rewrite Heq. by apply list_elem_of_fmap_2.
Qed.

Lemma month_total_cons e docs k :
  month_total dateYear dateMonth (e :: docs) k =
    (if decide (month_of dateYear dateMonth e = k) then amount e else 0)
    + month_total dateYear dateMonth docs k.
Proof.
  unfold month_total. rewrite filter_cons.
  destruct (decide (month_of dateYear dateMonth e = k)); simpl; [done | ring].
Qed.

(** What [$group] has produced once all documents are consumed. *)
Lemma group_fold docs groups :
  let groups' :=
    fold_left (λ gs e, group_add (month_of dateYear dateMonth e) (amount e) gs)
              docs groups in
  (NoDup (map Monthly._id groups) → NoDup (map Monthly._id groups')) ∧
  (∀ k, k ∈ map Monthly._id groups' ↔
        k ∈ map Monthly._id groups ∨ k ∈ map (month_of dateYear dateMonth) docs) ∧
  (∀ k, default 0 (total_of k groups')
        = default 0 (total_of k groups) + month_total dateYear dateMonth docs k).
Proof.
  revert groups. induction docs as [|e docs IH]; intros groups; simpl.
  - split_and!; [done| |].
    + intros k. rewrite elem_of_nil. naive_solver.
    + intros k. unfold month_total. simpl. ring.
  - destruct (IH (group_add (month_of dateYear dateMonth e) (amount e) groups))
      as (IH1 & IH2 & IH3).
    split_and!.
    + intros Hnd. by apply IH1, group_add_NoDup.
    + intros k. rewrite IH2, group_add_ids, elem_of_cons. naive_solver.
    + intros k. rewrite IH3, total_of_group_add, month_total_cons.
      destruct (decide (month_of dateYear dateMonth e = k)) as [->|]; simpl; ring.
Qed.

#[local] Instance not_older_trans : Transitive Monthly.not_older.
Proof.
  intros g1 g2 g3. unfold Monthly.not_older, Monthly.newer.
  intros [->|H12] [<-|H23]; auto. right. lia.
Qed.

#[local] Instance not_older_total : Total Monthly.not_older.
Proof.
  intros g1 g2. unfold Monthly.not_older, Monthly.newer.
  destruct (Monthly._id g1) as [y1 m1], (Monthly._id g2) as [y2 m2]. simpl.
  destruct (decide (y1 = y2)) as [->|], (decide (m1 = m2)) as [->|]; auto;
    [destruct (decide (m2 < m1)%Z) | destruct (decide (y2 < y1)%Z)
    | destruct (decide (y2 < y1)%Z)];
    (left; right; lia) || (right; right; lia).
Qed.

Lemma newer_irrefl k : ¬ Monthly.newer k k.
Proof. unfold Monthly.newer. lia. Qed.

(** A sorted list of groups with distinct keys is strictly descending. *)
Lemma strictly_descending groups :
  StronglySorted Monthly.not_older groups → NoDup (map Monthly._id groups) →
  StronglySorted newer_doc groups.
Proof.
  induction 1 as [|g groups Hs IH Hall]; simpl; intros Hnd.
  - constructor.
  - apply NoDup_cons in Hnd as [Hg Hnd]. constructor; [by apply IH|].
    apply Forall_forall. intros g' Hg'.
    rewrite Forall_forall in Hall. destruct (Hall g' Hg') as [Heq|?]; [|done].
    exfalso. apply Hg. rewrite Heq. by apply list_elem_of_fmap_2.
Qed.

End stats_facts.

(** ** Shares of one expense *)

Section shares.
Import Obj ObjFacts.
Implicit Types (b : Ledger) (p q : User).

Lemma fold_participants_untouched payer s (ps : list User) b a :
  a ∉ map _id ps → a ≠ payer →
  get2 (fold_left (participant_step payer s) ps b) a payer = get2 b a payer.
Proof.
  revert b. induction ps as [|p ps IH]; intros b Ha Hne; simpl; [done|].
  simpl in Ha. apply not_elem_of_cons in Ha as [Hap Ha].
  rewrite IH by done.
  destruct (decide (payer = _id p)) as [Heq|Hp].
  - by rewrite participant_step_self.
  - rewrite get2_participant_step by done.
    rewrite decide_False by naive_solver. by rewrite decide_False by naive_solver.
Qed.

(** Each participant other than the payer is charged one share, whether
    or not the payer is among the participants. *)
Lemma fold_participants_share payer s (ps : list User) b q :
  NoDup (map _id ps) → q ∈ ps → _id q ≠ payer →
  get2 (fold_left (participant_step payer s) ps b) (_id q) payer
  = Some (or_zero (get2 b (_id q) payer) + s).
Proof.
  revert b. induction ps as [|p ps IH]; intros b Hnd Hq Hne; simpl.
  - by apply elem_of_nil in Hq.
  - simpl in Hnd. apply NoDup_cons in Hnd as [Hp Hnd].
    apply elem_of_cons in Hq as [->|Hq].
    + rewrite fold_participants_untouched by done.
      rewrite get2_participant_step by done.
      rewrite decide_False by naive_solver. by rewrite decide_True.
    + rewrite IH by done. do 2 f_equal.
      destruct (decide (payer = _id p)) as [Heq|Hpp].
      * by rewrite participant_step_self.
      * rewrite get2_participant_step by done.
        rewrite decide_False by naive_solver.
        rewrite decide_False; [done|].
        intros [Heq _]. apply Hp. rewrite <- Heq. by apply list_elem_of_fmap_2.
Qed.

End shares.

(** ** User objects populated from one collection *)

Section consistency.
Import Obj ObjFacts.
Implicit Types (b : Ledger) (e : Expense) (u v : User) (k : string).

Lemma elem_of_users_of expenses u :
  u ∈ users_of expenses ↔ ∃ e, e ∈ expenses ∧ (u = paidBy e ∨ u ∈ participants e).
Proof.
  unfold users_of. rewrite list_elem_of_In, in_flat_map. split.
  - intros (e & He%list_elem_of_In & Hu). exists e. split; [done|].
    destruct Hu as [<-|Hu%list_elem_of_In]; auto.
  - intros (e & He%list_elem_of_In & Hu). exists e. split; [done|].
    destruct Hu as [->|Hu%list_elem_of_In]; [by left | by right].
Qed.

Lemma find_user_within expenses k u :
  find_user expenses k = Ok u → u ∈ users_of expenses ∧ _id u = k.
Proof.
  unfold find_user.
  destruct (List.find (involves k) expenses) as [e|] eqn:Hfind; [|done].
  apply find_some in Hfind as [He%list_elem_of_In _].
  destruct (List.find (is_user k) (participants e)) as [p|] eqn:Hp.
  - intros [= <-]. apply find_some in Hp as [Hin%list_elem_of_In Hid%is_user_true].
    split; [|done]. apply elem_of_users_of. exists e. auto.
  - destruct (List.find (paid_by k) expenses) as [e'|] eqn:Hfind'; [|done].
    intros [= <-]. apply find_some in Hfind' as [He'%list_elem_of_In Hid%is_user_true].
    split; [|done]. apply elem_of_users_of. exists e'. auto.
Qed.

Lemma users_of_mentioned expenses u : u ∈ users_of expenses → mentioned expenses (_id u).
Proof.
  intros (e & He & [->|Hu])%elem_of_users_of; exists e; split; try done.
  - apply involves_payer.
  - by apply involves_participant.
Qed.

(** With consistent user objects the lookup returns the one object of
    the identifier, wherever it finds it. *)
Lemma find_user_consistent expenses u :
  consistent_users expenses → u ∈ users_of expenses →
  find_user expenses (_id u) = Ok u.
Proof.
  intros Hc Hu.
  destruct (find_user_Ok expenses (_id u)) as (u' & Hfind & Hid).
  { by apply users_of_mentioned. }
  rewrite Hfind. f_equal.
  apply find_user_within in Hfind as [Hu' _].
  unfold consistent_users in Hc. rewrite Forall_forall in Hc.
  specialize (Hc u' Hu'). rewrite Forall_forall in Hc. by apply Hc.
Qed.

Lemma mentioned_users_of expenses k :
  mentioned expenses k → ∃ u, u ∈ users_of expenses ∧ _id u = k.
Proof.
  intros (u & Hfind & Hid)%find_user_Ok. exists u.
  by apply find_user_within in Hfind as [? _].
Qed.

(** Formatting reads the expense list only through the lookup of the
    users that occur in the ledger. *)
Lemma formatBalances_lookup_ext userId expenses expenses' b :
  ledger_within expenses b →
  (∀ k, mentioned expenses k → find_user expenses' k = find_user expenses k) →
  formatBalances userId expenses' b = formatBalances userId expenses b.
Proof.
  intros [Hrows Hcols] Hfind. unfold formatBalances. cbv zeta.
  rewrite (forEach_ext (owes_body expenses' b userId) (owes_body expenses b userId)).
  2: { intros out k Hk. unfold owes_body.
       destruct (get b userId) as [row|] eqn:Hr; [|done].
       destruct (get row k) as [amount|] eqn:Hamount; [|done].
       destruct (decide (0 < amount)); [|done].
       rewrite Hfind; [done|]. apply (Hcols userId).
       unfold get2. rewrite Hr. simpl. by rewrite Hamount. }
  apply forEach_ext. intros out k Hk.
  rewrite !owed_body_get2 by done.
  destruct (decide (k ≠ userId)); [|done].
  destruct (get2 b k userId) as [x|]; [|done].
  destruct (decide (x ≠ 0)); [|done].
  destruct (decide (0 < - x)); [|done].
  rewrite Hfind; [done|]. by apply Hrows.
Qed.

Lemma users_of_app l1 l2 : users_of (l1 ++ l2) = users_of l1 ++ users_of l2.
Proof. unfold users_of. apply flat_map_app. Qed.

Lemma users_of_remove l1 e l2 u :
  u ∈ users_of (l1 ++ l2) → u ∈ users_of (l1 ++ e :: l2).
Proof.
  rewrite !users_of_app. change (e :: l2) with ([e] ++ l2).
  rewrite users_of_app, !elem_of_app. naive_solver.
Qed.

(** Under consistency, removing an expense changes no lookup of a user
    that still occurs. *)
Lemma find_user_remove l1 e l2 k :
  consistent_users (l1 ++ e :: l2) → mentioned (l1 ++ l2) k →
  find_user (l1 ++ e :: l2) k = find_user (l1 ++ l2) k.
Proof.
  intros Hc (u & Hu & <-)%mentioned_users_of.
  rewrite (find_user_consistent (l1 ++ e :: l2)); [|done|by apply users_of_remove].
  rewrite find_user_consistent; [done| |done].
  unfold consistent_users in *. rewrite Forall_forall in Hc.
  apply Forall_forall. intros x Hx. apply Forall_forall. intros y Hy.
  specialize (Hc x (users_of_remove _ e _ _ Hx)). rewrite Forall_forall in Hc.
  apply Hc. by apply users_of_remove.
Qed.

End consistency.

(** ** The output, entry by entry *)

Section emitted.
Import Obj ObjFacts.
Implicit Types (b : Ledger) (x : Entry.t) (out : list Entry.t) (k c : string).

Lemma forEach_emit {K E} (body : list E → K → Result (list E)) (emit : K → list E)
    (ks : list K) (s : list E) :
  (∀ s i, i ∈ ks → body s i = Ok (s ++ emit i)) →
  forEach body ks (Ok s) = Ok (s ++ flat_map emit ks).
Proof.
  revert s. induction ks as [|i ks IH]; intros s H.
  - simpl. by rewrite app_nil_r.
  - rewrite forEach_cons.
    change (Ok s ≫= λ s0, body s0 i) with (body s i).
    rewrite H by apply list_elem_of_here.
    rewrite IH; [simpl; by rewrite <- app_assoc|].
    intros s' i' Hi'. apply H. by apply list_elem_of_further.
Qed.

Lemma user_of_id expenses k : _id (user_of expenses k) = k.
Proof.
  unfold user_of. destruct (find_user expenses k) as [u|] eqn:Hu; [|done].
  by apply find_user_within in Hu as [_ ?].
Qed.

Lemma find_user_user_of expenses k :
  mentioned expenses k → find_user expenses k = Ok (user_of expenses k).
Proof. intros (u & Hu & _)%find_user_Ok. unfold user_of. by rewrite Hu. Qed.

Lemma owes_body_emit expenses b userId out k :
  ledger_within expenses b →
  k ∈ keys (or_empty (get b userId)) →
  owes_body expenses b userId out k = Ok (out ++ owes_emit expenses b userId k).
Proof.
  intros [_ Hcols] Hk. unfold owes_body, owes_emit, get2.
  destruct (get b userId) as [row|] eqn:Hrow; simpl in *.
  2: { by apply elem_of_nil in Hk. }
  destruct (get row k) as [v|] eqn:Hv; [|by rewrite app_nil_r].
  destruct (decide (0 < v)); [|by rewrite app_nil_r].
  rewrite find_user_user_of; [done|].
  apply (Hcols userId). unfold get2. rewrite Hrow. simpl. by rewrite Hv.
Qed.

Lemma owed_body_emit expenses b userId out k :
  ledger_within expenses b →
  k ∈ keys b →
  owed_body expenses b userId out k = Ok (out ++ owed_emit expenses b userId k).
Proof.
  intros [Hrows _] Hk. rewrite owed_body_get2 by done. unfold owed_emit.
  destruct (decide (k ≠ userId)); [|by rewrite app_nil_r].
  destruct (get2 b k userId) as [x|]; [|by rewrite app_nil_r].
  destruct (decide (x ≠ 0)); [|by rewrite app_nil_r].
  destruct (decide (0 < - x)); [|by rewrite app_nil_r].
  rewrite find_user_user_of; [done|]. by apply Hrows.
Qed.

(** The output in closed form. *)
Lemma computeBalances_emit userId expenses :
  computeBalances userId expenses =
    Ok (flat_map (owes_emit expenses (accumulate expenses) userId)
                 (keys (or_empty (get (accumulate expenses) userId)))
        ++ flat_map (owed_emit expenses (accumulate expenses) userId)
                    (keys (accumulate expenses))).
Proof.
  unfold computeBalances, formatBalances. cbv zeta.
  pose proof (accumulate_within expenses) as Hin.
  rewrite (forEach_emit _ (owes_emit expenses (accumulate expenses) userId)).
  2: { intros s k Hk. by apply owes_body_emit. }
  apply forEach_emit. intros s k Hk. by apply owed_body_emit.
Qed.

Lemma participant_step_rows_NoDup payer s b p :
  rows_NoDup b → rows_NoDup (participant_step payer s b p).
Proof.
  intros Hb a row. destruct (decide (payer = _id p)) as [Heq|Hne].
  { rewrite participant_step_self by done. apply Hb. }
  rewrite get_participant_step by done.
  assert (∀ a', NoDup (keys (or_empty (get b a')))) as Hrow.
  { intros a'. destruct (get b a') as [r|] eqn:Hr; simpl; [by eapply Hb|].
    apply NoDup_nil_2. }
  destruct (decide (payer = a)); [intros [= <-]; by apply keys_set_NoDup|].
  destruct (decide (_id p = a)); [intros [= <-]; by apply keys_set_NoDup|].
  apply Hb.
Qed.

Lemma accumulate_rows_NoDup expenses : rows_NoDup (accumulate expenses).
Proof.
  apply accumulate_invariant; [done|]. apply participant_step_rows_NoDup.
Qed.

Lemma entries_for_app c out1 out2 :
  entries_for c (out1 ++ out2) = entries_for c out1 ++ entries_for c out2.
Proof. apply filter_app. Qed.

Lemma entries_for_all c out :
  Forall (λ x, _id (Entry.user x) = c) out → entries_for c out = out.
Proof.
  unfold entries_for. induction 1 as [|x out Hx _ IH]; [done|].
  by rewrite filter_cons_True, IH.
Qed.

Lemma entries_for_none c k out :
  k ≠ c → Forall (λ x, _id (Entry.user x) = k) out → entries_for c out = [].
Proof.
  intros Hne. unfold entries_for. induction 1 as [|x out Hx _ IH]; [done|].
  rewrite filter_cons_False; [done | congruence].
Qed.

(** Among the entries pushed over distinct keys, those of the
    counterparty [c] are the ones pushed at the key [c]. *)
Lemma entries_for_flat_map (emit : string → list Entry.t) (ks : list string) c :
  (∀ k, Forall (λ x, _id (Entry.user x) = k) (emit k)) →
  NoDup ks →
  entries_for c (flat_map emit ks) = if decide (c ∈ ks) then emit c else [].
Proof.
  intros Hemit. induction ks as [|k ks IH]; simpl.
  - by intros _.
  - intros [Hk Hnd]%NoDup_cons. unfold entries_for in *.
    rewrite filter_app, IH by done.
    destruct (decide (k = c)) as [->|Hne].
    + rewrite (decide_True (P := c ∈ c :: ks)) by apply list_elem_of_here.
      rewrite (decide_False (P := c ∈ ks)) by done. rewrite app_nil_r.
      by apply entries_for_all.
    + fold (entries_for c (emit k)). rewrite (entries_for_none c k) by done. simpl.
      destruct (decide (c ∈ ks)) as [Hin|Hout].
      * rewrite (decide_True (P := c ∈ k :: ks)); [done|].
        by apply list_elem_of_further.
      * rewrite (decide_False (P := c ∈ k :: ks)); [done|].
        rewrite not_elem_of_cons. naive_solver.
Qed.

Lemma owes_emit_user expenses b userId k :
  Forall (λ x, _id (Entry.user x) = k) (owes_emit expenses b userId k).
Proof.
  unfold owes_emit. destruct (get2 b userId k); [|done].
  destruct (decide _); [|done]. apply Forall_singleton. simpl. apply user_of_id.
Qed.

Lemma owed_emit_user expenses b userId k :
  Forall (λ x, _id (Entry.user x) = k) (owed_emit expenses b userId k).
Proof.
  unfold owed_emit. destruct (decide (k ≠ userId)); [|done].
  destruct (get2 b k userId); [|done].
  do 2 (destruct (decide _); [|done]). apply Forall_singleton. simpl. apply user_of_id.
Qed.

Lemma Qcopp_pos (v : Qc) : 0 < v → ¬ 0 < - v.
Proof.
  intros Hv Hn. apply (irreflexivity Qclt 0). etrans; [exact Hv|].
  apply Qclt_minus_iff. by rewrite Qcplus_0_l.
Qed.

(** With an anti-symmetric ledger the second loop pushes an entry for
    [c] exactly when the first one does. *)
Lemma owed_emit_mirror expenses b userId c :
  antisymmetric_ledger b → irreflexive_ledger b →
  owed_emit expenses b userId c =
    match get2 b userId c with
    | Some v => if decide (0 < v) then [Entry.mk false v (user_of expenses c)] else []
    | None => []
    end.
Proof.
  intros Hanti Hirr. unfold owed_emit. rewrite (Hanti userId c).
  destruct (decide (c ≠ userId)) as [Hne|Heq].
  - destruct (get2 b userId c) as [v|]; simpl; [|done].
    destruct (decide (- v ≠ 0)) as [Hnz|Hz].
    + rewrite Qcopp_involutive. by destruct (decide (0 < v)).
    + rewrite decide_False; [done|]. intros Hv. apply Hz. intros Heq.
      apply (f_equal Qcopp) in Heq. rewrite Qcopp_involutive in Heq. subst v.
      by apply (irreflexivity Qclt 0).
  - apply dec_stable in Heq as ->. by rewrite Hirr.
Qed.

(** X1. The entries of one counterparty in closed form: the output has
    both directions, with the ledger amount, when the requesting user
    owes the counterparty, and no entry for the counterparty otherwise. *)
Lemma entries_per_counterparty userId expenses c :
  ∃ out, computeBalances userId expenses = Ok out ∧
    entries_for c out =
      match get2 (accumulate expenses) userId c with
      | Some v =>
          if decide (0 < v)
          then [Entry.mk true v (user_of expenses c);
                Entry.mk false v (user_of expenses c)]
          else []
      | None => []
      end.
Proof.
  eexists. split; [apply computeBalances_emit|].
  pose proof (accumulate_antisymmetric expenses) as Hanti.
  pose proof (accumulate_irreflexive expenses) as Hirr.
  pose proof (accumulate_keys_NoDup expenses) as Hnd.
  pose proof (accumulate_rows_NoDup expenses) as Hrows.
  generalize dependent (accumulate expenses). intros b Hanti Hirr Hnd Hrows.
  rewrite entries_for_app, !entries_for_flat_map.
  - rewrite (owed_emit_mirror expenses b) by done.
    unfold owes_emit.
    destruct (get2 b userId c) as [v|] eqn:Hv.
    + assert (c ∈ keys (or_empty (get b userId))) as Hc1.
      { rewrite <- get_or_empty in Hv. by eapply get_Some_keys. }
      assert (is_Some (get2 b c userId)) as [x Hx].
      { rewrite (Hanti userId c). by rewrite Hv. }
      assert (c ∈ keys b) as Hc2.
      { unfold get2 in Hx. destruct (get b c) eqn:Hrow; [|done]. by eapply get_Some_keys. }
      rewrite (decide_True (P := c ∈ keys (or_empty (get b userId)))) by done.
      rewrite (decide_True (P := c ∈ keys b)) by done.
      by destruct (decide (0 < v)).
    + by do 2 destruct (decide _).
  - apply owed_emit_user.
  - done.
  - apply owes_emit_user.
  - destruct (get b userId) as [row|] eqn:Hrow; simpl; [|apply NoDup_nil_2].
    by eapply Hrows.
Qed.

End emitted.

(** * The claims *)

Ltac evaluate := apply (bool_decide_unpack _); vm_compute; exact I.

(** ** What the two loops emit *)

Lemma entries_are_debts userId expenses out :
  computeBalances userId expenses = Ok out →
  Forall (debt_entry (accumulate expenses) userId) out.
Proof.
  intros H. destruct (computeBalances_Ok userId expenses) as (out' & H' & Hall).
  congruence.
Qed.

(** Whoever is owed money by [a] does not see [a] at all: every entry
    in the view of [c], of either direction, is a debt of [c]. *)
Lemma creditor_view_omits_debtor expenses a c v out :
  get2 (accumulate expenses) a c = Some v → 0 < v →
  computeBalances c expenses = Ok out →
  Forall (λ y, _id (Entry.user y) ≠ a) out.
Proof.
  intros Hv Hpos Hout. apply entries_are_debts in Hout.
  eapply Forall_impl; [exact Hout|]. intros y (_ & Hy & Hget) Heq.
  rewrite Heq, (accumulate_antisymmetric expenses a c), Hv in Hget.
  simpl in Hget. injection Hget as Hget. rewrite <- Hget in Hy.
  apply (irreflexivity Qclt 0). etrans; [exact Hy|].
  apply Qclt_minus_iff. by rewrite Qcplus_0_l, Qcopp_involutive.
Qed.

(** C1. Code defect: the claim asks for exactly one entry per counterparty
    with a nonzero net amount, oriented by its sign.  On Scenario 3 the
    payer U1 has the nonzero amounts -30 against U2 and against U3 and
    receives an empty list, while U2 receives two entries for the single
    counterparty U1, one in each direction. *)
Theorem balance_views_scenario3 :
  get2 (accumulate scenario3) "U1" "U2" = Some (money (-30)) ∧
  get2 (accumulate scenario3) "U1" "U3" = Some (money (-30)) ∧
  computeBalances "U1" scenario3 = Ok [] ∧
  computeBalances "U2" scenario3
    = Ok [Entry.mk true (money 30) U1; Entry.mk false (money 30) U1].
Proof. split_and!; evaluate. Qed.

(** C2. Code defect: on Scenario 1 the claim asks for the single entry
    "U2 owes U1 50" in the view of U2 and the single entry "U1 is owed 50
    by U2" in the view of U1.  The handler returns both directions to U2
    and nothing to U1. *)
Theorem balance_views_scenario1 :
  computeBalances "U2" scenario1
    = Ok [Entry.mk true (money 50) U1; Entry.mk false (money 50) U1] ∧
  computeBalances "U1" scenario1 = Ok [] ∧
  balance_handler scenario1 "U2"
    = Json [Entry.mk true (money 50) U1; Entry.mk false (money 50) U1] ∧
  balance_handler scenario1 "U1" = Json [].
Proof. split_and!; evaluate. Qed.

(** C3. Code defect: symmetry fails.  On Scenario 2 the view of U2 has
    the entry "U2 owes U1 20", and the view of U1 has no entry for U2. *)
Theorem balance_views_scenario2 :
  get2 (accumulate scenario2) "U2" "U1" = Some (money 20) ∧
  computeBalances "U2" scenario2
    = Ok [Entry.mk true (money 20) U1; Entry.mk false (money 20) U1] ∧
  computeBalances "U1" scenario2 = Ok [].
Proof. split_and!; evaluate. Qed.

(** C4. After the accumulation phase the ledger is anti-symmetric and has
    no self-edge: an entry for (a, c) comes with the negated entry for
    (c, a), and no entry (a, a) exists.  A participant who is the payer
    changes no entry but counts in the denominator: every other
    participant is charged the amount divided by the number of all
    participants.  No user is their own counterparty in the output. *)
Theorem ledger_antisymmetric_without_self_edges (expenses : list Expense) :
  (∀ a c v, get2 (accumulate expenses) a c = Some v →
            get2 (accumulate expenses) c a = Some (- v)) ∧
  (∀ a, get2 (accumulate expenses) a a = None) ∧
  (∀ e p b, _id p = _id (paidBy e) →
            participant_step (_id (paidBy e)) (amountPerPerson e) b p = b) ∧
  (∀ e q, NoDup (map _id (participants e)) → q ∈ participants e →
          _id q ≠ _id (paidBy e) →
          get2 (accumulate [e]) (_id q) (_id (paidBy e))
          = Some (amount e / money (Z.of_nat (length (participants e))))) ∧
  (∀ userId, ∃ out, computeBalances userId expenses = Ok out ∧
                    Forall (λ x, _id (Entry.user x) ≠ userId) out).
Proof.
  split_and!.
  - intros a c v Hv. by rewrite (accumulate_antisymmetric expenses a c), Hv.
  - apply accumulate_irreflexive.
  - intros e p b Hp. by apply participant_step_self.
  - intros e q Hnd Hq Hne. unfold accumulate. simpl. unfold expense_step.
    rewrite fold_participants_share by done. simpl. f_equal. apply Qcplus_0_l.
  - intros userId. destruct (computeBalances_Ok userId expenses) as (out & Hout & Hall).
    exists out. split; [done|]. eapply Forall_impl; [exact Hall|].
    by intros x (? & _).
Qed.

Lemma ledger_antisymmetric_without_self_edges_witness :
  get2 (accumulate scenario1) "U2" "U1" = Some (money 50) ∧
  get2 (accumulate scenario1) "U1" "U2" = Some (- money 50).
Proof.
  assert (get2 (accumulate scenario1) "U2" "U1" = Some (money 50)) as H by evaluate.
  split; [exact H|].
  exact (proj1 (ledger_antisymmetric_without_self_edges scenario1) "U2" "U1" (money 50) H).
Defined.

(** C5. Conservation: over the users of any expense list, the net
    positions read off the ledger (what a user is owed minus what the
    user owes) sum to zero. *)
Theorem conservation (expenses : list Expense) :
  sumQc (map (net_position (accumulate expenses)) (all_users expenses)) = 0.
Proof.
  rewrite sum_net_position_cover.
  - rewrite accumulate_grand_total. apply Qc_is_canon. reflexivity.
  - apply accumulate_keys_NoDup.
  - apply NoDup_remove_dups.
  - intros k Hk. apply mentioned_all_users.
    by apply (proj1 (accumulate_within expenses)).
Qed.

(** ** Expenses without effect *)

Lemma sole_payer_step e b : sole_payer e → expense_step b e = b.
Proof.
  unfold sole_payer, expense_step. destruct (participants e) as [|p [|]]; try done.
  intros Hp. simpl. by apply participant_step_self.
Qed.

Lemma accumulate_insert l1 e l2 :
  (∀ b, expense_step b e = b) → accumulate (l1 ++ e :: l2) = accumulate (l1 ++ l2).
Proof. intros He. unfold accumulate. rewrite !fold_left_app. simpl. by rewrite He. Qed.

(** C6. An expense whose payer is its sole participant contributes no
    ledger entry and yields an empty balance for every user; adding it to
    a list leaves the ledger and every user's balance output unchanged
    (added last, or added anywhere when the populated user objects are
    consistent). *)
Theorem sole_payer_expense_is_neutral (e : Expense) :
  sole_payer e →
  (∀ b, expense_step b e = b) ∧
  (∀ userId, computeBalances userId [e] = Ok []) ∧
  (∀ l1 l2, accumulate (l1 ++ e :: l2) = accumulate (l1 ++ l2)) ∧
  (∀ userId l, computeBalances userId (l ++ [e]) = computeBalances userId l) ∧
  (∀ userId l1 l2, consistent_users (l1 ++ e :: l2) →
     computeBalances userId (l1 ++ e :: l2) = computeBalances userId (l1 ++ l2)).
Proof.
  intros He.
  assert (∀ b, expense_step b e = b) as Hstep by (intros b; by apply sole_payer_step).
  split_and!.
  - done.
  - intros userId. unfold computeBalances, accumulate. simpl. by rewrite Hstep.
  - intros l1 l2. by apply accumulate_insert.
  - intros userId l. unfold computeBalances. rewrite accumulate_snoc, Hstep.
    apply formatBalances_lookup_ext; [apply accumulate_within|].
    intros k Hk. by apply find_user_app.
  - intros userId l1 l2 Hc. unfold computeBalances.
    rewrite accumulate_insert by done.
    apply formatBalances_lookup_ext; [apply accumulate_within|].
    intros k Hk. by apply find_user_remove.
Qed.

Lemma sole_payer_expense_is_neutral_witness :
  sole_payer coffee ∧
  computeBalances "U2" (scenario1 ++ [coffee]) = computeBalances "U2" scenario1.
Proof.
  assert (sole_payer coffee) as H by reflexivity.
  split; [exact H|].
  exact (proj1 (proj2 (proj2 (proj2 (sole_payer_expense_is_neutral coffee H))))
           "U2" scenario1).
Defined.

(** ** Expenses of other users *)

Lemma involves_false userId e :
  involves userId e = false →
  _id (paidBy e) ≠ userId ∧ ∀ p, p ∈ participants e → _id p ≠ userId.
Proof.
  unfold involves. intros [Hpaid Hpart]%orb_false_iff. split.
  - intros Heq%is_user_true. unfold paid_by in Hpaid. congruence.
  - intros p Hp Heq%is_user_true.
    assert (existsb (is_user userId) (participants e) = true); [|congruence].
    apply existsb_exists. exists p. by rewrite <- list_elem_of_In.
Qed.

(** Processing an expense that does not involve a user leaves the row
    and the column of that user as they were. *)
Lemma expense_step_unrelated userId b e :
  involves userId e = false →
  Obj.get (expense_step b e) userId = Obj.get b userId ∧
  Obj.keys b `prefix_of` Obj.keys (expense_step b e) ∧
  (∀ k, get2 (expense_step b e) k userId = get2 b k userId).
Proof.
  intros [Hpayer Hpart]%involves_false.
  apply (expense_step_invariant
    (λ b', Obj.get b' userId = Obj.get b userId ∧
           Obj.keys b `prefix_of` Obj.keys b' ∧
           (∀ k, get2 b' k userId = get2 b k userId))); [done|].
  intros b' p Hp (Hrow & Hkeys & Hcol).
  destruct (decide (_id (paidBy e) = _id p)) as [Heq|Hne].
  { by rewrite participant_step_self. }
  specialize (Hpart p Hp). split_and!.
  - rewrite get_participant_step by done.
    rewrite decide_False by done. by rewrite decide_False by done.
  - etrans; [exact Hkeys|]. apply participant_step_keys_prefix.
  - intros k. rewrite get2_participant_step by done.
    rewrite decide_False by naive_solver. rewrite decide_False by naive_solver.
    apply Hcol.
Qed.

(** C8. An expense that does not involve the requesting user (neither as
    payer nor as participant) does not affect the user's balance output:
    the engine gives the same result with the expense appended, and the
    handler, whose query drops the expense, gives the same response. *)
Theorem unrelated_expense_is_invisible (userId : string) (l : list Expense) (e : Expense) :
  involves userId e = false →
  computeBalances userId (l ++ [e]) = computeBalances userId l ∧
  (∀ store1 store2,
     balance_handler (store1 ++ e :: store2) userId
     = balance_handler (store1 ++ store2) userId).
Proof.
  intros He. split.
  - unfold computeBalances.
    destruct (expense_step_unrelated userId (accumulate l) e He) as (Hrow & Hkeys & Hcol).
    apply formatBalances_grow.
    + apply accumulate_within.
    + apply accumulate_keys_NoDup.
    + by rewrite accumulate_snoc.
    + by rewrite accumulate_snoc.
    + intros k. by rewrite accumulate_snoc.
  - intros store1 store2. unfold balance_handler.
    by rewrite !filter_app, filter_cons, decide_False by (rewrite He; auto).
Qed.

Lemma unrelated_expense_is_invisible_witness :
  involves "U3" (mkExpense "dinner" (money 100) "Food" U1 [U1; U2] 0) = false ∧
  computeBalances "U3" (scenario3 ++ scenario1) = computeBalances "U3" scenario3.
Proof.
  assert (involves "U3" (mkExpense "dinner" (money 100) "Food" U1 [U1; U2] 0) = false)
    as H by reflexivity.
  split; [exact H|].
  exact (proj1 (unrelated_expense_is_invisible "U3" scenario3 _ H)).
Defined.

(** ** Malformed expenses *)

(** C7, as stated, fails: a list with a malformed expense is not rejected.
    An expense with a negative amount yields entries, and an expense
    without participants is passed over while the rest is reported. *)
Lemma malformed_expense_not_rejected :
  malformed refund ∧
  computeBalances "U1" [refund]
    = Ok [Entry.mk true (money 50) U2; Entry.mk false (money 50) U2] ∧
  balance_handler [refund] "U1"
    = Json [Entry.mk true (money 50) U2; Entry.mk false (money 50) U2] ∧
  malformed nobody ∧
  balance_handler (nobody :: scenario1) "U2"
    = Json [Entry.mk true (money 50) U1; Entry.mk false (money 50) U1].
Proof.
  split_and!; evaluate.
Qed.

Lemma accumulate_skips_empty (expenses : list Expense) b :
  fold_left expense_step (filter (λ e, participants e ≠ []) expenses) b
  = fold_left expense_step expenses b.
Proof.
  revert b. induction expenses as [|e l IH]; intros b; [done|].
  rewrite filter_cons. destruct (decide (participants e ≠ [])) as [|Hempty]; simpl.
  - apply IH.
  - rewrite IH. f_equal. unfold expense_step.
    destruct (participants e); [done|]. by destruct Hempty.
Qed.

(** The accumulation loop on fetched documents is the loop on the
    documents with their payers, when every payer is there. *)
Lemma forEach_fetched_step (expenses : list Fetched.t) b :
  forEach fetched_step expenses (Ok b)
  = with_payers expenses ≫= λ es, Ok (fold_left expense_step es b).
Proof.
  revert b. induction expenses as [|e l IH]; intros b; [done|].
  rewrite forEach_cons. simpl. unfold fetched_step at 2.
  destruct (with_payer e) as [x|]; simpl.
  - rewrite IH. by destruct (with_payers l).
  - apply forEach_TypeError.
Qed.

Lemma with_payers_TypeError (expenses : list Fetched.t) :
  with_payers expenses = TypeError ↔ Exists (λ e, Fetched.paidBy e = None) expenses.
Proof.
  induction expenses as [|e l IH]; simpl.
  - split; [done|]. by intros ?%Exists_nil.
  - rewrite Exists_cons, <- IH. unfold with_payer.
    destruct (Fetched.paidBy e); simpl.
    + destruct (with_payers l); simpl; naive_solver.
    + naive_solver.
Qed.

(** C7, amended. The handler checks neither participants nor amount, so
    it does not fail closed on a malformed expense: whether it answers with
    an error is decided by the payers alone.  It answers 500 exactly when
    [populate] left the payer of some expense [null]; on every other
    list, malformed expenses included, it answers with the balance list
    the two loops compute, and an expense without participants, whatever
    its amount, changes no ledger entry. *)
Theorem malformed_expense_is_not_refused (userId : string) (expenses : list Fetched.t) :
  (balance_of_fetched userId expenses = ServerError
     ↔ Exists (λ e, Fetched.paidBy e = None) expenses) ∧
  (∀ es, with_payers expenses = Ok es →
     ∃ out, computeBalances userId es = Ok out ∧
            balance_of_fetched userId expenses = Json out) ∧
  (∀ balances e, is_Some (Fetched.paidBy e) → Fetched.participants e = [] →
     fetched_step balances e = Ok balances).
Proof.
  assert (∀ es, with_payers expenses = Ok es →
     ∃ out, computeBalances userId es = Ok out ∧
            balance_of_fetched userId expenses = Json out) as Hok.
  { intros es Hes.
    destruct (computeBalances_Ok userId es) as (out & Hout & _).
    exists out. split; [done|].
    unfold balance_of_fetched, accumulate_fetched.
    rewrite forEach_fetched_step, Hes. simpl.
    unfold computeBalances, accumulate in Hout. by rewrite Hout. }
  split_and!.
  - rewrite <- with_payers_TypeError.
    destruct (with_payers expenses) as [es|] eqn:Hes.
    + destruct (Hok es eq_refl) as (out & _ & ->). by split.
    + split; [done|]. intros _.
      unfold balance_of_fetched, accumulate_fetched.
      by rewrite forEach_fetched_step, Hes.
  - exact Hok.
  - intros balances e [payer Hpayer] Hnone.
    unfold fetched_step, with_payer. rewrite Hpayer. simpl.
    unfold expense_step. simpl. by rewrite Hnone.
Qed.

Lemma malformed_expense_is_not_refused_witness :
  malformed_fetched (fetched nobody) ∧ malformed_fetched (fetched refund) ∧
  balance_of_fetched "U2" (map fetched (nobody :: scenario1))
    = Json [Entry.mk true (money 50) U1; Entry.mk false (money 50) U1] ∧
  balance_of_fetched "U1" [fetched refund]
    = Json [Entry.mk true (money 50) U2; Entry.mk false (money 50) U2] ∧
  balance_of_fetched "U2" (orphan :: map fetched scenario1) = ServerError.
Proof.
  split_and!.
  - by left.
  - right. evaluate.
  - destruct (proj1 (proj2 (malformed_expense_is_not_refused "U2"
                              (map fetched (nobody :: scenario1))))
                    (nobody :: scenario1) eq_refl) as (out & Hout & ->).
    assert (computeBalances "U2" (nobody :: scenario1)
            = Ok [Entry.mk true (money 50) U1; Entry.mk false (money 50) U1]) as H
      by evaluate.
    congruence.
  - destruct (proj1 (proj2 (malformed_expense_is_not_refused "U1" [fetched refund]))
                    [refund] eq_refl) as (out & Hout & ->).
    assert (computeBalances "U1" [refund]
            = Ok [Entry.mk true (money 50) U2; Entry.mk false (money 50) U2]) as H
      by evaluate.
    congruence.
  - apply (proj1 (malformed_expense_is_not_refused "U2" (orphan :: map fetched scenario1))).
    by left.
Defined.

(** ** The lookup of the counterparty *)

(** The lookup succeeds for every user of the ledger, whatever the
    amounts are: every user with a row or a column occurs in some expense
    as payer or as participant, and the lookup for such a user returns a
    user object with that identifier. *)
Lemma counterparty_lookup_succeeds (expenses : list Expense) :
  Forall (λ c, mentioned expenses c ∧ ∃ u, find_user expenses c = Ok u ∧ _id u = c)
         (Obj.keys (accumulate expenses)) ∧
  (∀ userId,
     Forall (λ c, mentioned expenses c ∧ ∃ u, find_user expenses c = Ok u ∧ _id u = c)
            (Obj.keys (or_empty (Obj.get (accumulate expenses) userId)))) ∧
  (∀ userId, ∃ out, computeBalances userId expenses = Ok out).
Proof.
  destruct (accumulate_within expenses) as [Hrows Hcols]. split_and!.
  - apply Forall_forall. intros c Hc. split; [by apply Hrows|].
    by apply find_user_Ok, Hrows.
  - intros userId. apply Forall_forall. intros c Hc.
    assert (mentioned expenses c) as Hm.
    { apply (Hcols userId). rewrite <- get_or_empty. by apply ObjFacts.keys_get. }
    split; [done|]. by apply find_user_Ok.
  - intros userId. destruct (computeBalances_Ok userId expenses) as (out & Hout & _).
    by exists out.
Qed.

Lemma Q2Qc_inject_Z_pos (z : Z) : (0 < z)%Z → 0 < Q2Qc (inject_Z z).
Proof.
  intros Hz. unfold Qclt. simpl. rewrite !Qred_correct.
  unfold Qlt. simpl. lia.
Qed.

(** A share of a positive amount is positive. *)
Lemma amountPerPerson_pos (e : Expense) (p : User) :
  0 < amount e → p ∈ participants e → 0 < amountPerPerson e.
Proof.
  intros Ha Hp. unfold amountPerPerson. apply Qcmult_pos_pos; [done|].
  apply Qcinv_pos, Q2Qc_inject_Z_pos.
  destruct (participants e); [by apply elem_of_nil in Hp | simpl; lia].
Qed.

(** With positive amounts a ledger entry can only be positive when its
    creditor paid an expense: other steps subtract from it. *)
Lemma positive_entry_has_payer (expenses : list Expense) a c v :
  Forall (λ e, 0 < amount e) expenses →
  get2 (accumulate expenses) a c = Some v → 0 < v →
  ∃ e, e ∈ expenses ∧ _id (paidBy e) = c.
Proof.
  intros Hpos. revert a c v.
  apply (accumulate_invariant_in
    (λ b, ∀ a c v, get2 b a c = Some v → 0 < v →
                   ∃ e, e ∈ expenses ∧ _id (paidBy e) = c)).
  { intros a c v [=]. }
  intros e p b He Hp IH a c v.
  assert (0 < amountPerPerson e) as Hs.
  { apply (amountPerPerson_pos e p); [|done].
    rewrite Forall_forall in Hpos. by apply Hpos. }
  destruct (decide (_id (paidBy e) = _id p)) as [Heq|Hne].
  { rewrite participant_step_self by done. apply IH. }
  rewrite get2_participant_step by done.
  destruct (decide (a = _id (paidBy e) ∧ c = _id p)) as [[-> ->]|_].
  - intros [= <-] Hv.
    destruct (get2 b (_id (paidBy e)) (_id p)) as [old|] eqn:Hold; simpl in Hv.
    + apply (IH _ _ old Hold).
      replace old with (old - amountPerPerson e + amountPerPerson e) by ring.
      by apply Qcplus_pos_pos.
    + exfalso. pose proof (Qcplus_pos_pos _ _ Hv Hs) as H.
      replace (0 - amountPerPerson e + amountPerPerson e) with 0 in H by ring.
      by apply (irreflexivity Qclt 0).
  - destruct (decide (a = _id p ∧ c = _id (paidBy e))) as [[-> ->]|_]; [|apply IH].
    intros _ _. by exists e.
Qed.

(** The user object of every entry is the result of the lookup for its
    identifier. *)
Lemma emitted_users_are_looked_up userId (expenses : list Expense) out :
  computeBalances userId expenses = Ok out →
  Forall (λ x, find_user expenses (_id (Entry.user x)) = Ok (Entry.user x)) out.
Proof.
  rewrite computeBalances_emit. intros [= <-].
  destruct (accumulate_within expenses) as [Hrows Hcols].
  apply Forall_app. split; apply Forall_forall; intros x Hx;
    apply list_elem_of_In, in_flat_map in Hx as (k & Hk%list_elem_of_In & Hx%list_elem_of_In).
  - unfold owes_emit in Hx.
    destruct (get2 (accumulate expenses) userId k) as [v|] eqn:Hv;
      [|by apply elem_of_nil in Hx].
    destruct (decide (0 < v)); [|by apply elem_of_nil in Hx].
    apply list_elem_of_singleton in Hx as ->. simpl. rewrite user_of_id.
    apply find_user_user_of, (Hcols userId). by rewrite Hv.
  - unfold owed_emit in Hx.
    destruct (decide (k ≠ userId)); [|by apply elem_of_nil in Hx].
    destruct (get2 (accumulate expenses) k userId) as [v|];
      [|by apply elem_of_nil in Hx].
    do 2 (destruct (decide _); [|by apply elem_of_nil in Hx]).
    apply list_elem_of_singleton in Hx as ->. simpl. rewrite user_of_id.
    by apply find_user_user_of, Hrows.
Qed.

(** C10. For every well-formed expense list (a payer, participants, and
    the positive amount the creation of an expense requires), the
    formatting phase never throws, and whenever it emits an entry for a
    counterparty, the counterparty is the payer of some expense of the
    list and the lookup yields the user object of the entry. *)
Theorem emitted_counterparty_is_payer (userId : string) (expenses : list Expense) :
  Forall (λ e, 0 < amount e) expenses →
  Forall (λ e, participants e ≠ []) expenses →
  ∃ out, computeBalances userId expenses = Ok out ∧
    Forall (λ x,
        get2 (accumulate expenses) userId (_id (Entry.user x)) = Some (Entry.amount x) ∧
        Entry.amount x ≠ 0 ∧
        (∃ e, e ∈ expenses ∧ _id (paidBy e) = _id (Entry.user x)) ∧
        find_user expenses (_id (Entry.user x)) = Ok (Entry.user x))
      out.
Proof.
  intros Hpos _.
  destruct (computeBalances_Ok userId expenses) as (out & Hout & Hdebt).
  exists out. split; [done|].
  pose proof (emitted_users_are_looked_up userId expenses out Hout) as Hlook.
  rewrite Forall_forall in Hdebt, Hlook. apply Forall_forall. intros x Hx.
  destruct (Hdebt x Hx) as (_ & Hamount & Hget). split_and!.
  - done.
  - by apply not_eq_sym, Qclt_not_eq.
  - by eapply positive_entry_has_payer.
  - by apply Hlook.
Qed.

Lemma emitted_counterparty_is_payer_witness :
  Forall (λ e, 0 < amount e) scenario3 ∧
  Forall (λ e, participants e ≠ []) scenario3 ∧
  ∃ out, computeBalances "U2" scenario3 = Ok out ∧
    Forall (λ x,
        get2 (accumulate scenario3) "U2" (_id (Entry.user x)) = Some (Entry.amount x) ∧
        Entry.amount x ≠ 0 ∧
        (∃ e, e ∈ scenario3 ∧ _id (paidBy e) = _id (Entry.user x)) ∧
        find_user scenario3 (_id (Entry.user x)) = Ok (Entry.user x))
      out.
Proof.
  assert (Forall (λ e, 0 < amount e) scenario3) as H1 by (repeat constructor).
  assert (Forall (λ e, participants e ≠ []) scenario3) as H2
    by (constructor; [done | constructor]).
  split_and!; [exact H1 | exact H2|].
  exact (emitted_counterparty_is_payer "U2" scenario3 H1 H2).
Defined.

(** ** Monthly totals *)

Section monthly_claim.
Variables dateYear dateMonth : Z → Z.

(** C9. The monthly statistics hold at most 12 buckets, in strictly
    descending order of (year, month); each bucket is a month present in
    the user's expenses and carries the sum of the amounts of the
    expenses of that month; a month of the data that is left out is older
    than each of the 12 buckets kept. *)
Theorem monthly_statistics (store : list Expense) (userId : string) :
  (length (monthlyExpenses dateYear dateMonth store userId) ≤ 12)%nat ∧
  StronglySorted (λ g1 g2, Monthly.newer (Monthly._id g1) (Monthly._id g2))
    (monthlyExpenses dateYear dateMonth store userId) ∧
  Forall (λ g,
      Monthly._id g ∈ map (month_of dateYear dateMonth)
                          (filter (λ e, involves userId e) store) ∧
      Monthly.total g
      = month_total dateYear dateMonth (filter (λ e, involves userId e) store)
                    (Monthly._id g))
    (monthlyExpenses dateYear dateMonth store userId) ∧
  Forall (λ e,
      month_of dateYear dateMonth e
        ∈ map Monthly._id (monthlyExpenses dateYear dateMonth store userId) ∨
      (length (monthlyExpenses dateYear dateMonth store userId) = 12%nat ∧
       Forall (λ g, Monthly.newer (Monthly._id g) (month_of dateYear dateMonth e))
              (monthlyExpenses dateYear dateMonth store userId)))
    (filter (λ e, involves userId e) store).
Proof.
  unfold monthlyExpenses.
  set (docs := filter (λ e, involves userId e) store).
  set (groups := group_by_month dateYear dateMonth docs).
  set (sorted := merge_sort Monthly.not_older groups).
  destruct (group_fold dateYear dateMonth docs []) as (Hnd & Hids & Htotal).
  fold (group_by_month dateYear dateMonth docs) in Hnd, Hids, Htotal.
  fold groups in Hnd, Hids, Htotal.
  specialize (Hnd (NoDup_nil_2 (A:=Monthly.key))).
  assert (sorted ≡ₚ groups) as Hperm by apply merge_sort_Permutation.
  assert (StronglySorted (newer_doc) sorted) as Hsorted.
  { apply strictly_descending.
    - apply StronglySorted_merge_sort; [apply not_older_trans | apply not_older_total].
    - by rewrite Hperm. }
  rewrite <- (take_drop 12 sorted) in Hsorted.
  assert (∀ g, g ∈ take 12 sorted → g ∈ groups) as Htake.
  { intros g Hg. rewrite <- Hperm, <- (take_drop 12 sorted). apply elem_of_app. by left. }
  split_and!.
  - rewrite length_take. lia.
  - by apply StronglySorted_app_1_l in Hsorted.
  - apply Forall_forall. intros g Hg%Htake. split.
    + destruct (proj1 (Hids (Monthly._id g))) as [H|H]; [|by apply elem_of_nil in H|done].
      by apply list_elem_of_fmap_2.
    + specialize (Htotal (Monthly._id g)).
      rewrite (total_of_elem g groups) in Htotal by done. simpl in Htotal.
      by rewrite Htotal, Qcplus_0_l.
  - apply Forall_forall. intros e He.
    assert (month_of dateYear dateMonth e ∈ map Monthly._id groups) as Hin.
    { apply Hids. right. by apply list_elem_of_fmap_2. }
    apply list_elem_of_fmap in Hin as (g & Hg & Hgin).
    rewrite <- Hperm, <- (take_drop 12 sorted) in Hgin.
    apply elem_of_app in Hgin as [Hgin|Hgin].
    + left. rewrite Hg. by apply list_elem_of_fmap_2.
    + right. split.
      * rewrite length_take.
        destruct (decide (length sorted ≤ 12)%nat) as [Hle|]; [|lia].
        rewrite drop_ge in Hgin by done. by apply elem_of_nil in Hgin.
      * apply Forall_forall. intros g' Hg'. rewrite Hg.
        by apply (StronglySorted_app_1_elem_of _ _ _ _ _ Hsorted).
Qed.

End monthly_claim.

(** The pipeline on the sample data: the two expenses of February 2025
    are summed, the gift of another user is not counted, and the two
    oldest of the fourteen months are cut off. *)
Example monthly_statistics_sample :
  monthlyExpenses sampleYear sampleMonth rents "U1"
  = Monthly.mk (Monthly.mkKey 2025 2) (money 15)
    :: Monthly.mk (Monthly.mkKey 2025 1) (money 10)
    :: map (λ m, Monthly.mk (Monthly.mkKey 2024 m) (money 10))
           [12; 11; 10; 9; 8; 7; 6; 5; 4; 3]%Z.
Proof. evaluate. Qed.

(** * Further properties *)

(** ** The shape of the ledger *)

Section shape.
Import Obj ObjFacts.
Implicit Types (b : Ledger) (e : Expense) (p : User) (k a c : string).

Lemma is_Some_participant_step payer s b p a c :
  is_Some (get2 (participant_step payer s b p) a c) ↔
  is_Some (get2 b a c) ∨
  (a ≠ c ∧ ((payer = c ∧ _id p = a) ∨ (payer = a ∧ _id p = c))).
Proof.
  destruct (decide (payer = _id p)) as [Heq|Hne].
  - rewrite participant_step_self by done. split; [by left|].
    intros [?|[Hac H]]; [done|]. destruct Hac. destruct H as [[? ?]|[? ?]]; congruence.
  - rewrite get2_participant_step by done.
    destruct (decide (a = payer ∧ c = _id p)) as [[-> ->]|H1].
    { split; [|by eexists]. intros _. right. split; [done|]. by right. }
    destruct (decide (a = _id p ∧ c = payer)) as [[-> ->]|H2].
    { split; [|by eexists]. intros _. right. split; [congruence|]. by left. }
    split; [by left|]. intros [?|[_ [[? ?]|[? ?]]]]; [done| |].
    + destruct H2. by split.
    + destruct H1. by split.
Qed.

Lemma is_Some_fold_participants payer s (ps : list User) b a c :
  is_Some (get2 (fold_left (participant_step payer s) ps b) a c) ↔
  is_Some (get2 b a c) ∨
  (a ≠ c ∧ ∃ p, p ∈ ps ∧ ((payer = c ∧ _id p = a) ∨ (payer = a ∧ _id p = c))).
Proof.
  revert b. induction ps as [|p ps IH]; intros b; simpl.
  - split; [by left|]. intros [?|[_ (p & Hp & _)]]; [done|]. by apply elem_of_nil in Hp.
  - rewrite IH, is_Some_participant_step. split.
    + intros [[?|[Hac H]]|[Hac (q & Hq & H)]]; [by left| |].
      * right. split; [done|]. exists p. split; [apply list_elem_of_here | done].
      * right. split; [done|]. exists q. split; [by apply list_elem_of_further | done].
    + intros [?|[Hac (q & [->|Hq]%elem_of_cons & H)]].
      * by left; left.
      * left. right. by split.
      * right. split; [done|]. by exists q.
Qed.

Lemma is_Some_fold_expenses (expenses : list Expense) b a c :
  is_Some (get2 (fold_left expense_step expenses b) a c) ↔
  is_Some (get2 b a c) ∨ (a ≠ c ∧ linked expenses a c).
Proof.
  revert b. induction expenses as [|e l IH]; intros b; simpl.
  - split; [by left|]. intros [?|[_ (e & p & He & _)]]; [done|].
    by apply elem_of_nil in He.
  - rewrite IH. unfold expense_step. rewrite is_Some_fold_participants. split.
    + intros [[?|[Hac (p & Hp & H)]]|[Hac (e' & p & He' & Hp & H)]]; [by left| |].
      * right. split; [done|]. exists e, p. split; [apply list_elem_of_here | done].
      * right. split; [done|]. exists e', p. split; [by apply list_elem_of_further|done].
    + intros [?|[Hac (e' & p & [->|He']%elem_of_cons & Hp & H)]].
      * by left; left.
      * left. right. split; [done|]. by exists p.
      * right. split; [done|]. by exists e', p.
Qed.

Lemma is_Some_accumulate (expenses : list Expense) a c :
  is_Some (get2 (accumulate expenses) a c) ↔ a ≠ c ∧ linked expenses a c.
Proof.
  unfold accumulate. rewrite is_Some_fold_expenses. split; [|by right].
  intros [[x Hx]|?]; [|done]. by destruct a.
Qed.

Lemma linked_Permutation (l l' : list Expense) a c :
  l ≡ₚ l' → linked l a c → linked l' a c.
Proof.
  intros Hperm (e & p & He & H). exists e, p. split; [by rewrite <- Hperm | done].
Qed.

Lemma is_Some_Permutation (l l' : list Expense) a c :
  l ≡ₚ l' →
  is_Some (get2 (accumulate l) a c) ↔ is_Some (get2 (accumulate l') a c).
Proof.
  intros Hperm. rewrite !is_Some_accumulate.
  split; intros [? ?]; (split; [done|]); eapply linked_Permutation; done.
Qed.

Lemma keys_row_elem b a k :
  k ∈ keys (or_empty (get b a)) ↔ is_Some (get2 b a k).
Proof.
  rewrite <- get_or_empty. split; [apply keys_get|].
  intros [v Hv]. by eapply get_Some_keys.
Qed.

Lemma participant_step_rows_inhabited payer s b p :
  rows_inhabited b → rows_inhabited (participant_step payer s b p).
Proof.
  intros Hb a row. destruct (decide (payer = _id p)) as [Heq|Hne].
  { rewrite participant_step_self by done. apply Hb. }
  rewrite get_participant_step by done.
  assert (∀ (o : Obj.t Qc) k v, set o k v ≠ []) as Hset.
  { intros [|[k0 v0] o] k v; simpl; [done|]. by destruct (decide (k0 = k)). }
  destruct (decide (payer = a)); [intros [= <-]; apply Hset|].
  destruct (decide (_id p = a)); [intros [= <-]; apply Hset|].
  apply Hb.
Qed.

Lemma accumulate_rows_inhabited expenses : rows_inhabited (accumulate expenses).
Proof.
  apply accumulate_invariant; [done|]. apply participant_step_rows_inhabited.
Qed.

Lemma keys_elem b k :
  rows_inhabited b → k ∈ keys b ↔ ∃ c, is_Some (get2 b k c).
Proof.
  intros Hb. split.
  - intros [row Hrow]%keys_get. specialize (Hb k row Hrow).
    destruct row as [|[c v] row]; [done|]. exists c. unfold get2. rewrite Hrow.
    simpl. rewrite decide_True by done. by eexists.
  - intros (c & v & Hv). unfold get2 in Hv.
    destruct (get b k) as [row|] eqn:Hrow; [|done]. by eapply get_Some_keys.
Qed.

Lemma accumulate_keys_Permutation (l l' : list Expense) :
  l ≡ₚ l' → keys (accumulate l) ≡ₚ keys (accumulate l').
Proof.
  intros Hperm. apply NoDup_Permutation; [apply accumulate_keys_NoDup..|].
  intros k. rewrite !keys_elem by apply accumulate_rows_inhabited.
  by setoid_rewrite (is_Some_Permutation l l' k).
Qed.

Lemma accumulate_row_Permutation (l l' : list Expense) a :
  l ≡ₚ l' →
  keys (or_empty (get (accumulate l) a)) ≡ₚ keys (or_empty (get (accumulate l') a)).
Proof.
  intros Hperm. apply NoDup_Permutation.
  - destruct (get (accumulate l) a) eqn:H; simpl; [|apply NoDup_nil_2].
    by eapply accumulate_rows_NoDup.
  - destruct (get (accumulate l') a) eqn:H; simpl; [|apply NoDup_nil_2].
    by eapply accumulate_rows_NoDup.
  - intros k. by rewrite !keys_row_elem, (is_Some_Permutation l l').
Qed.

End shape.

(** X3. Which entries the ledger has: [balances[a][c]] exists exactly
    when [a] and [c] are different users and one of them paid an expense
    the other takes part in, and [a] has a row exactly when there is such
    a [c]. *)
Theorem ledger_entries_are_links (expenses : list Expense) (a c : string) :
  (is_Some (get2 (accumulate expenses) a c) ↔ a ≠ c ∧ linked expenses a c) ∧
  (a ∈ Obj.keys (accumulate expenses) ↔ ∃ k, a ≠ k ∧ linked expenses a k).
Proof.
  split; [apply is_Some_accumulate|].
  rewrite keys_elem by apply accumulate_rows_inhabited.
  by setoid_rewrite is_Some_accumulate.
Qed.

(** ** The order of the expenses *)

(** X4. Which entries the ledger has does not depend on the order in
    which the database returns the expenses (the query of the handler has
    no sort): two lists with the same expenses give entries for the same
    pairs of users, rows for the same users, and in every row the same
    counterparties; the order of the rows and of the counterparties may
    differ. *)
Theorem ledger_shape_order_independent (l l' : list Expense) :
  l ≡ₚ l' →
  (∀ a c, is_Some (get2 (accumulate l) a c) ↔ is_Some (get2 (accumulate l') a c)) ∧
  Obj.keys (accumulate l) ≡ₚ Obj.keys (accumulate l') ∧
  (∀ a, Obj.keys (or_empty (Obj.get (accumulate l) a))
        ≡ₚ Obj.keys (or_empty (Obj.get (accumulate l') a))).
Proof.
  intros Hperm. split_and!.
  - intros a c. by apply is_Some_Permutation.
  - by apply accumulate_keys_Permutation.
  - intros a. by apply accumulate_row_Permutation.
Qed.

Lemma ledger_shape_order_independent_witness :
  scenario2 ≡ₚ reverse scenario2 ∧
  Obj.keys (accumulate scenario2) = ["U2"; "U1"] ∧
  Obj.keys (accumulate (reverse scenario2)) = ["U1"; "U2"] ∧
  Obj.keys (accumulate scenario2) ≡ₚ Obj.keys (accumulate (reverse scenario2)).
Proof.
  assert (scenario2 ≡ₚ reverse scenario2) as H by apply perm_swap.
  split_and!; [exact H | reflexivity | reflexivity |].
  exact (proj1 (proj2 (ledger_shape_order_independent scenario2 (reverse scenario2) H))).
Defined.

(** ** The payment buttons of the balance tab *)

Section buttons.
Import Obj ObjFacts.
Implicit Types (b : Ledger) (row : Obj.t Qc) (k : string).

Lemma paymentButtons_app (out1 out2 : list Entry.t) :
  paymentButtons (out1 ++ out2) = paymentButtons out1 ++ paymentButtons out2.
Proof. unfold paymentButtons. by rewrite filter_app, map_app. Qed.

Lemma paymentButtons_owed expenses b userId (ks : list string) :
  paymentButtons (flat_map (owed_emit expenses b userId) ks) = [].
Proof.
  induction ks as [|k ks IH]; simpl; [done|].
  rewrite paymentButtons_app, IH, app_nil_r. unfold owed_emit.
  destruct (decide (k ≠ userId)); [|done].
  destruct (get2 b k userId); [|done].
  by do 2 (destruct (decide _); [|done]).
Qed.

Lemma flat_map_ext_elem {A B} (f g : A → list B) (l : list A) :
  (∀ x, x ∈ l → f x = g x) → flat_map f l = flat_map g l.
Proof.
  induction l as [|x l IH]; simpl; intros H; [done|].
  rewrite H by apply list_elem_of_here. f_equal. apply IH.
  intros y Hy. apply H. by apply list_elem_of_further.
Qed.

(** Reading a row key by key visits its entries in order. *)
Lemma flat_map_keys {B} (g : string → Qc → list B) row :
  NoDup (keys row) →
  flat_map (λ k, match get row k with Some v => g k v | None => [] end) (keys row)
  = flat_map (λ kv, g kv.1 kv.2) row.
Proof.
  unfold keys. induction row as [|[k0 v0] row IH]; simpl; [done|].
  intros [Hk0 Hnd]%NoDup_cons. rewrite decide_True by done. f_equal.
  rewrite <- IH by done. apply flat_map_ext_elem. intros k Hk.
  rewrite decide_False; [done|]. by intros ->.
Qed.

Lemma paymentButtons_owes expenses (row : list (string * Qc)) :
  map (λ pb, (PaymentButton.toUserId pb, PaymentButton.amount pb))
      (paymentButtons
         (flat_map (λ kv, if decide (0 < kv.2)
                          then [Entry.mk true kv.2 (user_of expenses kv.1)] else [])
                   row))
  = filter (λ kv, 0 < kv.2) row.
Proof.
  induction row as [|[k v] row IH]; [done|].
  cbn [flat_map]. rewrite paymentButtons_app, map_app, IH, filter_cons.
  cbn [fst snd]. destruct (decide (0 < v)); [|done].
  unfold paymentButtons. rewrite filter_cons_True by done. simpl.
  by rewrite user_of_id.
Qed.

End buttons.

(** X2. The client offers a payment button for exactly the positive
    entries of the requesting user's row of the ledger, in the order of
    the row, each with the counterparty and the amount of the entry: the
    entries pushed by the second loop never produce a button. *)
Theorem payment_buttons_are_debts (userId : string) (expenses : list Expense) :
  ∃ out, computeBalances userId expenses = Ok out ∧
    map (λ pb, (PaymentButton.toUserId pb, PaymentButton.amount pb)) (paymentButtons out)
    = filter (λ kv, 0 < kv.2)
             (or_empty (Obj.get (accumulate expenses) userId) : list (string * Qc)).
Proof.
  eexists. split; [apply computeBalances_emit|].
  rewrite paymentButtons_app, paymentButtons_owed, app_nil_r.
  set (row := or_empty (Obj.get (accumulate expenses) userId)).
  set (g := λ (k : string) (v : Qc),
         if decide (0 < v) then [Entry.mk true v (user_of expenses k)] else []).
  rewrite (flat_map_ext (owes_emit expenses (accumulate expenses) userId)
             (λ k, match Obj.get row k with Some v => g k v | None => [] end)).
  2: { intros k. unfold owes_emit, row. by rewrite get_or_empty. }
  rewrite (flat_map_keys g).
  - apply paymentButtons_owes.
  - unfold row.
    destruct (Obj.get (accumulate expenses) userId) as [r|] eqn:Hrow; simpl.
    + by eapply accumulate_rows_NoDup.
    + apply NoDup_nil_2.
Qed.

(** ** Statistics by category *)

Section category_facts.
Implicit Types (c : string) (g : ByCategory.t) (groups : list ByCategory.t).

Lemma category_find_add c a groups c' :
  category_find c' (category_add c a groups) =
    if decide (c = c')
    then Some (ByCategory.mk c
                 (default 0 (ByCategory.total <$> category_find c groups) + a)
                 (default 0%Z (ByCategory.count <$> category_find c groups) + 1))
    else category_find c' groups.
Proof.
  induction groups as [|g groups IH]; simpl.
  - done.
  - destruct (decide (ByCategory._id g = c)) as [Hg|Hg]; simpl.
    + destruct (decide (c = c')) as [->|]; [done|].
      by rewrite decide_False by congruence.
    + rewrite IH. destruct (decide (c = c')) as [<-|]; [|done].
      by rewrite decide_False.
Qed.

Lemma category_add_ids c a groups c' :
  c' ∈ map ByCategory._id (category_add c a groups)
  ↔ c' = c ∨ c' ∈ map ByCategory._id groups.
Proof.
  induction groups as [|g groups IH]; simpl.
  - rewrite list_elem_of_singleton. split; [by left|]. intros [?|H]; [done|].
    by apply elem_of_nil in H.
  - destruct (decide (ByCategory._id g = c)) as [Hg|Hg]; simpl.
    + rewrite !elem_of_cons, Hg. naive_solver.
    + rewrite !elem_of_cons, IH. naive_solver.
Qed.

Lemma category_add_NoDup c a groups :
  NoDup (map ByCategory._id groups) →
  NoDup (map ByCategory._id (category_add c a groups)).
Proof.
  induction groups as [|g groups IH]; simpl.
  - intros _. apply NoDup_singleton.
  - intros [Hg Hnd]%NoDup_cons.
    destruct (decide (ByCategory._id g = c)) as [Heq|Hne]; simpl.
    + apply NoDup_cons. by rewrite <- Heq.
    + apply NoDup_cons. split; [|by apply IH].
      rewrite category_add_ids. naive_solver.
Qed.

Lemma category_find_elem g groups :
  NoDup (map ByCategory._id groups) → g ∈ groups →
  category_find (ByCategory._id g) groups = Some g.
Proof.
  induction groups as [|g0 groups IH]; simpl.
  - intros _ H. by apply elem_of_nil in H.
  - intros [Hg0 Hnd]%NoDup_cons [->|Hin]%elem_of_cons.
    + by rewrite decide_True.
    + rewrite decide_False; [by apply IH|].
      intros Heq. apply Hg0. rewrite Heq. by apply list_elem_of_fmap_2.
Qed.

Lemma category_add_count c a groups :
  foldr Z.add 0%Z (map ByCategory.count (category_add c a groups))
  = (foldr Z.add 0 (map ByCategory.count groups) + 1)%Z.
Proof.
  induction groups as [|g groups IH]; simpl; [lia|].
  destruct (decide (ByCategory._id g = c)); simpl; lia.
Qed.

(** What [$group] has produced once all documents are consumed. *)
Lemma category_fold (docs : list Expense) groups :
  let groups' :=
    fold_left (λ gs e, category_add (category e) (amount e) gs) docs groups in
  (NoDup (map ByCategory._id groups) → NoDup (map ByCategory._id groups')) ∧
  (∀ c, c ∈ map ByCategory._id groups' ↔
        c ∈ map ByCategory._id groups ∨ c ∈ map category docs) ∧
  (∀ c, default 0 (ByCategory.total <$> category_find c groups')
        = default 0 (ByCategory.total <$> category_find c groups)
          + sumQc (map amount (filter (λ e, category e = c) docs))) ∧
  (∀ c, default 0%Z (ByCategory.count <$> category_find c groups')
        = (default 0 (ByCategory.count <$> category_find c groups)
           + Z.of_nat (length (filter (λ e, category e = c) docs)))%Z) ∧
  foldr Z.add 0%Z (map ByCategory.count groups')
  = (foldr Z.add 0 (map ByCategory.count groups) + Z.of_nat (length docs))%Z.
Proof.
  revert groups. induction docs as [|e docs IH]; intros groups.
  - simpl. split_and!; [done| | | |].
    + intros c. rewrite elem_of_nil. naive_solver.
    + intros c. ring.
    + intros c. lia.
    + lia.
  - destruct (IH (category_add (category e) (amount e) groups))
      as (IH1 & IH2 & IH3 & IH4 & IH6).
    cbn [fold_left]. split_and!.
    + intros Hnd. by apply IH1, category_add_NoDup.
    + intros c. rewrite IH2, category_add_ids. cbn [map]. rewrite elem_of_cons.
      naive_solver.
    + intros c. rewrite IH3, category_find_add, filter_cons.
      destruct (decide (category e = c)) as [->|]; simpl; ring.
    + intros c. rewrite IH4, category_find_add, filter_cons.
      destruct (decide (category e = c)) as [->|]; simpl; lia.
    + rewrite IH6, category_add_count. cbn [length]. lia.
Qed.

End category_facts.

(** X6. The category statistics have one group for each category of the
    user's expenses and no other; the total of a group is the sum of the
    amounts of the expenses of that category and its count is their
    number. *)
Theorem category_statistics (store : list Expense) (userId : string) :
  NoDup (map ByCategory._id (expensesByCategory store userId)) ∧
  (∀ c, c ∈ map ByCategory._id (expensesByCategory store userId)
        ↔ c ∈ map category (filter (λ e, involves userId e) store)) ∧
  Forall (λ g,
      ByCategory.total g
      = sumQc (map amount (filter (λ e, category e = ByCategory._id g)
                                  (filter (λ e, involves userId e) store))) ∧
      ByCategory.count g
      = Z.of_nat (length (filter (λ e, category e = ByCategory._id g)
                                 (filter (λ e, involves userId e) store))))
    (expensesByCategory store userId).
Proof.
  unfold expensesByCategory.
  destruct (category_fold (filter (λ e, involves userId e) store) [])
    as (Hnd & Hids & Htotal & Hcount & _).
  specialize (Hnd (NoDup_nil_2 (A:=string))). cbv zeta in *. split_and!.
  - done.
  - intros c. rewrite Hids. split; [|by right]. intros [H|?]; [|done].
    by apply elem_of_nil in H.
  - apply Forall_forall. intros g Hg.
    specialize (Htotal (ByCategory._id g)). specialize (Hcount (ByCategory._id g)).
    rewrite (category_find_elem g) in Htotal, Hcount by done. simpl in *.
    split; [by rewrite Htotal, Qcplus_0_l | lia].
Qed.

(** X7. The category statistics count every expense of the user once:
    the counts of the groups add up to the number of the user's
    expenses. *)
Theorem category_counts_add_up (store : list Expense) (userId : string) :
  foldr Z.add 0%Z (map ByCategory.count (expensesByCategory store userId))
  = Z.of_nat (length (filter (λ e, involves userId e) store)).
Proof.
  unfold expensesByCategory.
  destruct (category_fold (filter (λ e, involves userId e) store) [])
    as (_ & _ & _ & _ & Hcount).
  cbv zeta in *. rewrite Hcount. simpl. lia.
Qed.

(** ** The expense list *)

Section expense_list.





End expense_list.


Example expense_list_sample :
  expenses_handler [alice_account; bob_account] stored_expenses "id1"
  = [Listed.mk "e2" "taxi" (money 60) "Travel"
       (Some (Member.mk "id2" "bob" "bob@example.org"))
       [Member.mk "id1" "alice" "alice@example.org";
        Member.mk "id2" "bob" "bob@example.org"] 20;
     Listed.mk "e1" "dinner" (money 100) "Food"
       (Some (Member.mk "id1" "alice" "alice@example.org"))
       [Member.mk "id1" "alice" "alice@example.org";
        Member.mk "id2" "bob" "bob@example.org"] 10] ∧
  map Listed.participants (expenses_handler [alice_account; bob_account] stored_expenses "id2")
  = [[Member.mk "id2" "bob" "bob@example.org"];
     [Member.mk "id1" "alice" "alice@example.org";
      Member.mk "id2" "bob" "bob@example.org"];
     [Member.mk "id1" "alice" "alice@example.org";
      Member.mk "id2" "bob" "bob@example.org"]].
Proof. split; evaluate. Qed.

(** ** The participant check boxes *)

Section toggle.
Implicit Types (s clicks : list string) (u x : string).

Lemma toggle_elem s u x :
  x ∈ handleParticipantToggle s u ↔ (if decide (x = u) then x ∉ s else x ∈ s).
Proof.
  unfold handleParticipantToggle.
  destruct (decide (u ∈ s)) as [Hin|Hout].
  - rewrite list_elem_of_filter.
    destruct (decide (x = u)) as [->|]; naive_solver.
  - rewrite elem_of_app, list_elem_of_singleton.
    destruct (decide (x = u)) as [->|]; naive_solver.
Qed.

Lemma toggle_NoDup s u : NoDup s → NoDup (handleParticipantToggle s u).
Proof.
  intros Hs. unfold handleParticipantToggle.
  destruct (decide (u ∈ s)) as [Hin|Hout].
  - by apply NoDup_filter.
  - apply NoDup_app. split_and!; [done| |apply NoDup_singleton].
    by intros x Hx ->%list_elem_of_singleton.
Qed.

Lemma filter_ne_absent s u : u ∉ s → filter (λ id, id ≠ u) s = s.
Proof.
  induction s as [|y s IH]; [done|].
  rewrite not_elem_of_cons. intros [Hne Hs].
  rewrite filter_cons_True by done. f_equal. by apply IH.
Qed.

Lemma fold_toggle clicks s x :
  NoDup s →
  NoDup (fold_left handleParticipantToggle clicks s) ∧
  (x ∈ fold_left handleParticipantToggle clicks s ↔
   (x ∈ s ↔ Nat.even (clicks_on x clicks) = true)).
Proof.
  revert s. induction clicks as [|u clicks IH]; intros s Hs.
  - simpl. split; [done|]. unfold clicks_on. simpl. naive_solver.
  - cbn [fold_left].
    destruct (IH (handleParticipantToggle s u) (toggle_NoDup s u Hs)) as [Hnd Hx].
    split; [done|]. rewrite Hx, toggle_elem. unfold clicks_on.
    rewrite filter_cons.
    destruct (decide (u = x)) as [->|Hne].
    + rewrite decide_True by done. cbn [length]. rewrite Nat.even_succ.
      rewrite <- Nat.negb_even.
      destruct (Nat.even (length (filter (λ id, id = x) clicks)));
        destruct (decide (x ∈ s)); simpl; naive_solver.
    + by rewrite decide_False by done.
Qed.

End toggle.

(** X10. After any series of clicks on the participant check boxes the
    selection holds no user twice, and it holds a user exactly when the
    box of that user was clicked an odd number of times. *)
Theorem selection_after_clicks (clicks : list string) (userId : string) :
  NoDup (selection clicks) ∧
  (userId ∈ selection clicks ↔ Nat.odd (clicks_on userId clicks) = true).
Proof.
  destruct (fold_toggle clicks [] userId (NoDup_nil_2 (A:=string))) as [Hnd Hx].
  split; [done|]. unfold selection. rewrite Hx, <- Nat.negb_even.
  destruct (Nat.even (clicks_on userId clicks)); simpl.
  - split; [|done]. intros [_ H]. specialize (H eq_refl). by apply elem_of_nil in H.
  - split; [done|]. intros _. split; [|done]. intros H. by apply elem_of_nil in H.
Qed.

(** X11. Clicking the same check box twice brings the selection back:
    to the same list when the user was not selected, and to a list with
    the same users, the clicked one moved to the end, when the user was
    selected. *)
Theorem toggle_twice (participants : list string) (userId : string) :
  NoDup participants →
  handleParticipantToggle (handleParticipantToggle participants userId) userId
    ≡ₚ participants ∧
  (userId ∉ participants →
   handleParticipantToggle (handleParticipantToggle participants userId) userId
   = participants) ∧
  (userId ∈ participants →
   handleParticipantToggle (handleParticipantToggle participants userId) userId
   = filter (λ id, id ≠ userId) participants ++ [userId]).
Proof.
  intros Hnd.
  assert (userId ∉ participants →
    handleParticipantToggle (handleParticipantToggle participants userId) userId
    = participants) as Hout.
  { intros Hu. unfold handleParticipantToggle at 2. rewrite decide_False by done.
    unfold handleParticipantToggle. rewrite decide_True.
    - rewrite filter_app, filter_ne_absent by done.
      rewrite filter_cons_False by naive_solver. by rewrite app_nil_r.
    - apply elem_of_app. right. apply list_elem_of_here. }
  assert (userId ∈ participants →
    handleParticipantToggle (handleParticipantToggle participants userId) userId
    = filter (λ id, id ≠ userId) participants ++ [userId]) as Hin.
  { intros Hu. unfold handleParticipantToggle at 2. rewrite decide_True by done.
    unfold handleParticipantToggle. rewrite decide_False; [done|].
    rewrite list_elem_of_filter. naive_solver. }
  split_and!; [|done..].
  destruct (decide (userId ∈ participants)) as [Hu|Hu].
  - rewrite Hin by done. apply NoDup_Permutation; [|done|].
    + apply NoDup_app. split_and!; [by apply NoDup_filter| |apply NoDup_singleton].
      intros x [Hx _]%list_elem_of_filter ->%list_elem_of_singleton. done.
    + intros x. rewrite elem_of_app, list_elem_of_filter, list_elem_of_singleton.
      destruct (decide (x = userId)) as [->|]; naive_solver.
  - by rewrite Hout.
Qed.

Lemma toggle_twice_witness :
  NoDup ["U1"; "U2"; "U3"] ∧
  handleParticipantToggle (handleParticipantToggle ["U1"; "U2"; "U3"] "U2") "U2"
    ≡ₚ ["U1"; "U2"; "U3"].
Proof.
  assert (NoDup ["U1"; "U2"; "U3"]) as H by (apply (bool_decide_unpack _); by vm_compute).
  split; [exact H|].
  exact (proj1 (toggle_twice ["U1"; "U2"; "U3"] "U2" H)).
Defined.

(** ** Adding an expense *)

Section post_expense_facts.
Variable trim : string → string.
Variable save : NewExpense.t → bool.

Lemma finalCategory_Ok category c :
  finalCategory trim category = Ok c →
  c = "General" ∨ (category = Some (JStr c) ∧ c ≠ "" ∧ trim c ≠ "").
Proof.
  unfold finalCategory. destruct (truthy category) eqn:Ht; [|intros [= <-]; by left].
  destruct category as [[| | |s| |]|]; try done.
  destruct (decide (trim s ≠ "")); intros [= <-]; [|by left].
  right. split_and!; [done| |done]. simpl in Ht. by apply bool_decide_eq_true in Ht.
Qed.

(** The category of the document, decided by the category sent. *)
Lemma finalCategory_kept category c :
  finalCategory trim category = Ok c →
  (∀ s, category = Some (JStr s) → s ≠ "" → trim s ≠ "" → c = s) ∧
  (¬ (∃ s, category = Some (JStr s) ∧ s ≠ "" ∧ trim s ≠ "") → c = "General").
Proof.
  unfold finalCategory. destruct (truthy category) eqn:Ht.
  - destruct category as [[| | |s| |]|]; try done.
    simpl in Ht. apply bool_decide_eq_true in Ht.
    destruct (decide (trim s ≠ "")) as [Hs|Hs]; intros [= <-]; split.
    + by intros s' [= <-] _ _.
    + intros []. by exists s.
    + intros s' [= <-] _ ?. done.
    + done.
  - intros [= <-]. split; [|done].
    intros s -> Hs _. simpl in Ht. by apply bool_decide_eq_false in Ht.
Qed.

(** X12. An expense is created only from a body whose amount is a number
    greater than zero and whose description, payer and participants are
    truthy, the participants not of length zero; the document takes
    these fields as they were sent, and its category is never blank: it
    is the category sent when that is a string with something other than
    white space, which is then kept as it was sent, and ["General"] in
    every other case. *)
Theorem created_expense_is_valid (body : ExpenseBody.t) (doc : NewExpense.t) :
  post_expense trim save body = Created doc →
  ExpenseBody.amount body = Some (JNum (NewExpense.amount doc)) ∧
  0 < NewExpense.amount doc ∧
  NewExpense.description doc = ExpenseBody.description body ∧
  NewExpense.paidBy doc = ExpenseBody.paidBy body ∧
  NewExpense.participants doc = ExpenseBody.participants body ∧
  truthy (NewExpense.description doc) = true ∧
  truthy (NewExpense.paidBy doc) = true ∧
  truthy (NewExpense.participants doc) = true ∧
  length_is_zero (NewExpense.participants doc) = false ∧
  (NewExpense.category doc = "General" ∨
   (ExpenseBody.category body = Some (JStr (NewExpense.category doc)) ∧
    NewExpense.category doc ≠ "" ∧ trim (NewExpense.category doc) ≠ "")) ∧
  (∀ s, ExpenseBody.category body = Some (JStr s) → s ≠ "" → trim s ≠ "" →
        NewExpense.category doc = s) ∧
  (¬ (∃ s, ExpenseBody.category body = Some (JStr s) ∧ s ≠ "" ∧ trim s ≠ "") →
   NewExpense.category doc = "General") ∧
  save doc = true.
Proof.
  unfold post_expense. destruct body as [d a c p ps]. cbn [ExpenseBody.description
    ExpenseBody.amount ExpenseBody.category ExpenseBody.paidBy ExpenseBody.participants].
  destruct (negb (truthy d) || negb (truthy a) || negb (truthy p)
            || negb (truthy ps) || length_is_zero ps) eqn:Hreq; [done|].
  repeat (apply orb_false_iff in Hreq as [Hreq ?]).
  destruct a as [[| |n| | |]|]; try done.
  destruct (decide (n ≤ 0)) as [|Hn]; [done|].
  destruct (finalCategory trim c) as [c'|] eqn:Hc; [|done].
  destruct (save _) eqn:Hsave; [|done]. intros [= <-]. simpl.
  split_and!; try done.
  - by apply Qcnot_le_lt.
  - by apply negb_false_iff.
  - by apply negb_false_iff.
  - by apply negb_false_iff.
  - by apply finalCategory_Ok.
  - by apply finalCategory_kept.
  - by apply finalCategory_kept.
Qed.

(** X13. How a request fails.  An amount of zero counts as a missing
    field, whatever else is sent.  With all fields present, an amount
    that is not a number greater than zero is refused as such.  With a
    valid amount, a category that is truthy and not a string is not
    refused but makes the handler throw, and the answer is a server
    error. *)
Theorem expense_request_errors (body : ExpenseBody.t) :
  (ExpenseBody.amount body = Some (JNum 0) →
   post_expense trim save body = BadRequest "Please provide all required fields.") ∧
  (truthy (ExpenseBody.description body) = true →
   truthy (ExpenseBody.amount body) = true →
   truthy (ExpenseBody.paidBy body) = true →
   truthy (ExpenseBody.participants body) = true →
   length_is_zero (ExpenseBody.participants body) = false →
   ((∀ n, ExpenseBody.amount body = Some (JNum n) → n ≤ 0) →
    post_expense trim save body = BadRequest "Amount must be a positive number.") ∧
   (∀ n, ExpenseBody.amount body = Some (JNum n) → 0 < n →
         truthy (ExpenseBody.category body) = true →
         (∀ s, ExpenseBody.category body ≠ Some (JStr s)) →
         post_expense trim save body = ServerFailure)).
Proof.
  unfold post_expense. destruct body as [d a c p ps]. cbn [ExpenseBody.description
    ExpenseBody.amount ExpenseBody.category ExpenseBody.paidBy ExpenseBody.participants].
  split.
  - intros ->. simpl. by rewrite orb_true_r.
  - intros -> -> -> -> ->. simpl. split.
    + intros Hn. destruct a as [[| |n| | |]|]; try done.
      by rewrite decide_True by by apply Hn.
    + intros n -> Hn Hc Hs.
      rewrite decide_False by by apply Qclt_not_le.
      unfold finalCategory. rewrite Hc.
      destruct c as [[| | |s| |]|]; try done. by destruct (Hs s).
Qed.

End post_expense_facts.

Lemma created_expense_is_valid_witness :
  post_expense (λ s, s) (λ _, true)
    (ExpenseBody.mk (Some (JStr "dinner")) (Some (JNum (money 100))) (Some (JStr "Food"))
                    (Some (JStr "U1")) (Some (JArr [JStr "U1"; JStr "U2"])))
  = Created (NewExpense.mk (Some (JStr "dinner")) (money 100) "Food"
                           (Some (JStr "U1")) (Some (JArr [JStr "U1"; JStr "U2"]))) ∧
  0 < money 100.
Proof.
  assert (post_expense (λ s, s) (λ _, true)
    (ExpenseBody.mk (Some (JStr "dinner")) (Some (JNum (money 100))) (Some (JStr "Food"))
                    (Some (JStr "U1")) (Some (JArr [JStr "U1"; JStr "U2"])))
  = Created (NewExpense.mk (Some (JStr "dinner")) (money 100) "Food"
                           (Some (JStr "U1")) (Some (JArr [JStr "U1"; JStr "U2"]))))
    as H by reflexivity.
  split; [exact H|].
  exact (proj1 (proj2 (created_expense_is_valid (λ s, s) (λ _, true) _ _ H))).
Defined.

Lemma expense_request_errors_witness :
  post_expense (λ s, s) (λ _, true)
    (ExpenseBody.mk (Some (JStr "dinner")) (Some (JNum 0)) None
                    (Some (JStr "U1")) (Some (JArr [JStr "U1"])))
  = BadRequest "Please provide all required fields.".
Proof.
  exact (proj1 (expense_request_errors (λ s, s) (λ _, true)
    (ExpenseBody.mk (Some (JStr "dinner")) (Some (JNum 0)) None
                    (Some (JStr "U1")) (Some (JArr [JStr "U1"])))) eq_refl).
Defined.

(** ** The token of a request *)

Section authenticate_facts.
Variable verify : string → option Claims.t.
Implicit Types (s w r : string).

Lemma split_cons_nonempty sep s : split sep s ≠ [].
Proof.
  destruct s as [|c s]; simpl; [done|].
  destruct (decide (c = sep)); [done|]. by destruct (split sep s).
Qed.

(** A word without a space is the first piece, and the rest is split on
    its own. *)
Lemma split_word w r :
  has_space w = false → split " " (w +:+ " " +:+ r) = w :: split " " r.
Proof.
  induction w as [|c w IH]; simpl.
  - intros _. reflexivity.
  - intros [Hc Hw]%orb_false_iff. apply bool_decide_eq_false in Hc.
    rewrite decide_False by done. by rewrite IH.
Qed.

Lemma split_no_space w : has_space w = false → split " " w = [w].
Proof.
  induction w as [|c w IH]; simpl; [done|].
  intros [Hc Hw]%orb_false_iff. apply bool_decide_eq_false in Hc.
  rewrite decide_False by done. by rewrite IH.
Qed.

Lemma word_space_nonempty w r : w +:+ " " +:+ r ≠ "".
Proof. by destruct w. Qed.

Lemma token_of_word w r :
  has_space w = false → token_of (Some (w +:+ " " +:+ r)) = head (split " " r).
Proof.
  intros Hw. unfold token_of.
  rewrite decide_False by apply word_space_nonempty.
  rewrite split_word by done. simpl. by destruct (split " " r).
Qed.

(** X14. The token is the second field of the header: for a first word
    and a token without spaces, the token not empty, the request passes
    exactly when the token verifies, whatever the first word is (it need
    not be [Bearer]) and whatever follows a further space. *)
Theorem token_is_second_field (scheme token rest : string) :
  has_space scheme = false → has_space token = false → token ≠ "" →
  authenticateToken verify (Some (scheme +:+ " " +:+ token))
  = (match verify token with Some user => Next user | None => Status403 end) ∧
  authenticateToken verify (Some (scheme +:+ " " +:+ token +:+ " " +:+ rest))
  = (match verify token with Some user => Next user | None => Status403 end).
Proof.
  intros Hs Ht Hne. unfold authenticateToken. split.
  - rewrite token_of_word, split_no_space by done. simpl.
    by rewrite decide_False by done.
  - rewrite token_of_word, split_word by done. simpl.
    by rewrite decide_False by done.
Qed.

(** X15. Without a token the answer is 401 and the token is never
    verified: when the header is missing or empty, when it has no space,
    and when its first space ends the header or is followed by another
    space. *)
Theorem missing_token_is_unauthorized (header rest : string) :
  has_space header = false →
  authenticateToken verify None = Status401 ∧
  authenticateToken verify (Some "") = Status401 ∧
  authenticateToken verify (Some header) = Status401 ∧
  authenticateToken verify (Some (header +:+ " ")) = Status401 ∧
  authenticateToken verify (Some (header +:+ " " +:+ " " +:+ rest)) = Status401.
Proof.
  intros Hh. unfold authenticateToken. split_and!; [done..| | |].
  - unfold token_of. destruct (decide (header = "")) as [->|]; [done|].
    by rewrite split_no_space.
  - change (header +:+ " ") with (header +:+ " " +:+ "").
    by rewrite token_of_word.
  - by rewrite (token_of_word header (" " +:+ rest)) by done.
Qed.

End authenticate_facts.

Lemma token_is_second_field_witness :
  has_space "Basic" = false ∧ has_space "abc.def.ghi" = false ∧
  authenticateToken (λ t, Some (Claims.mk t "alice")) (Some "Basic abc.def.ghi")
  = Next (Claims.mk "abc.def.ghi" "alice").
Proof.
  split_and!; [reflexivity..|].
  exact (proj1 (token_is_second_field (λ t, Some (Claims.mk t "alice"))
                  "Basic" "abc.def.ghi" "" eq_refl eq_refl
                  ltac:(discriminate))).
Defined.

Lemma missing_token_is_unauthorized_witness :
  has_space "Bearer" = false ∧
  authenticateToken (λ t, Some (Claims.mk t "alice")) (Some "Bearer  abc") = Status401.
Proof.
  split; [reflexivity|].
  exact (proj2 (proj2 (proj2 (proj2
           (missing_token_is_unauthorized (λ t, Some (Claims.mk t "alice"))
              "Bearer" "abc" eq_refl))))).
Defined.

(** ** The bar charts *)

Section charts.
Implicit Types (l : list Qc) (m t : Qc).

Lemma Math_max_spec l m :
  Math_max l = Some m → m ∈ l ∧ Forall (λ x, x ≤ m) l.
Proof.
  revert m. induction l as [|x l IH]; intros m; simpl; [done|].
  destruct (Math_max l) as [m'|] eqn:Hm'.
  - destruct (IH m' eq_refl) as [Hin Hall]. intros [= <-].
    destruct (decide (m' ≤ x)) as [Hle|Hgt].
    + split; [apply list_elem_of_here|]. constructor; [done|].
      eapply Forall_impl; [exact Hall|]. intros y Hy. simpl in Hy. by etrans.
    + split; [by apply list_elem_of_further|]. constructor; [|done].
      by apply Qclt_le_weak, Qcnot_le_lt.
  - intros [= <-]. destruct l; [|simpl in Hm'; by destruct (Math_max l)].
    split; [apply list_elem_of_here|]. by repeat constructor.
Qed.

Lemma Math_max_nonempty l : l ≠ [] → is_Some (Math_max l).
Proof. destruct l as [|x l]; [done|]. intros _. simpl. by destruct (Math_max l). Qed.

Lemma width_bounds t m :
  0 < t → t ≤ m →
  0 < t / m * Q2Qc (inject_Z 100) ∧ t / m * Q2Qc (inject_Z 100) ≤ Q2Qc (inject_Z 100).
Proof.
  intros Ht Htm.
  assert (0 < m) as Hm by (by eapply Qclt_le_trans).
  assert (0 < / m) as Hinv by by apply Qcinv_pos.
  assert (0 < Q2Qc (inject_Z 100)) as H100 by done.
  split.
  - apply Qcmult_pos_pos; [|done]. by apply Qcmult_pos_pos.
  - rewrite <- (Qcmult_1_l (Q2Qc (inject_Z 100))) at 2.
    apply Qcmult_le_mono_nonneg_r; [by apply Qclt_le_weak|].
    rewrite <- (Qcmult_inv_r m) by (by apply Qclt_not_eq in Hm).
    apply Qcmult_le_mono_nonneg_r; [by apply Qclt_le_weak | done].
Qed.

Lemma bar_widths_bounds l :
  l ≠ [] → Forall (λ t, 0 < t) l →
  length (bar_widths l) = length l ∧
  Forall (λ w, 0 < w ∧ w ≤ Q2Qc (inject_Z 100)) (bar_widths l) ∧
  Q2Qc (inject_Z 100) ∈ bar_widths l.
Proof.
  intros Hne Hpos. unfold bar_widths.
  destruct (Math_max_nonempty l Hne) as [m Hm]. rewrite Hm.
  destruct (Math_max_spec l m Hm) as [Hin Hle].
  rewrite Forall_forall in Hpos, Hle. split_and!.
  - apply length_map.
  - apply Forall_forall. intros w (t & -> & Ht)%list_elem_of_fmap.
    apply width_bounds; auto.
  - apply list_elem_of_fmap. exists m. split; [|done].
    unfold Qcdiv. rewrite Qcmult_inv_r, Qcmult_1_l; [done|].
    apply not_eq_sym, Qclt_not_eq. by apply Hpos.
Qed.

Lemma sumQc_positive l : l ≠ [] → Forall (λ t, 0 < t) l → 0 < sumQc l.
Proof.
  induction l as [|x l IH]; [done|]. intros _ [Hx Hl]%Forall_cons. simpl.
  destruct l as [|y l].
  - simpl. by rewrite Qcplus_0_r.
  - apply Qcplus_pos_pos; [done|]. by apply IH.
Qed.

End charts.

Section chart_claims.
Variables dateYear dateMonth : Z → Z.

Lemma category_totals_positive (store : list Expense) (userId : string) :
  Forall (λ e, 0 < amount e) store →
  Forall (λ t, 0 < t) (map ByCategory.total (expensesByCategory store userId)).
Proof.
  intros Hpos. unfold expensesByCategory.
  destruct (category_fold (filter (λ e, involves userId e) store) [])
    as (Hnd & Hids & Htotal & _).
  cbv zeta in *. specialize (Hnd (NoDup_nil_2 (A:=string))).
  apply Forall_fmap, Forall_forall. intros g Hg. simpl.
  specialize (Htotal (ByCategory._id g)).
  rewrite (category_find_elem g) in Htotal by done. simpl in Htotal.
  rewrite Htotal, Qcplus_0_l.
  assert (ByCategory._id g ∈ map category (filter (λ e, involves userId e) store))
    as Hin.
  { destruct (proj1 (Hids (ByCategory._id g))) as [H|H]; [|by apply elem_of_nil in H|done].
    by apply list_elem_of_fmap_2. }
  apply list_elem_of_fmap in Hin as (e & He & Hein).
  apply sumQc_positive.
  - intros Hnil. apply fmap_nil_inv in Hnil.
    assert (e ∈ filter (λ e0, category e0 = ByCategory._id g)
                       (filter (λ e0, involves userId e0) store)) as H
      by (by apply list_elem_of_filter).
    rewrite Hnil in H. by apply elem_of_nil in H.
  - apply Forall_fmap, Forall_forall. intros e' He'. simpl.
    rewrite Forall_forall in Hpos. apply Hpos.
    by apply list_elem_of_filter in He' as [_ [_ ?]%list_elem_of_filter].
Qed.

Lemma monthly_totals_positive (store : list Expense) (userId : string) :
  Forall (λ e, 0 < amount e) store →
  Forall (λ t, 0 < t)
         (map Monthly.total (monthlyExpenses dateYear dateMonth store userId)).
Proof.
  intros Hpos. unfold monthlyExpenses.
  set (docs := filter (λ e, involves userId e) store).
  destruct (group_fold dateYear dateMonth docs []) as (Hnd & Hids & Htotal).
  fold (group_by_month dateYear dateMonth docs) in Hnd, Hids, Htotal.
  specialize (Hnd (NoDup_nil_2 (A:=Monthly.key))).
  apply Forall_fmap, Forall_forall. intros g Hg. simpl.
  assert (g ∈ group_by_month dateYear dateMonth docs) as Hgin.
  { rewrite <- (merge_sort_Permutation Monthly.not_older).
    rewrite <- (take_drop 12 (merge_sort _ _)). apply elem_of_app. by left. }
  specialize (Htotal (Monthly._id g)).
  rewrite (total_of_elem g) in Htotal by done. simpl in Htotal.
  rewrite Htotal, Qcplus_0_l.
  assert (Monthly._id g ∈ map (month_of dateYear dateMonth) docs) as Hin.
  { destruct (proj1 (Hids (Monthly._id g))) as [H|H]; [|by apply elem_of_nil in H|done].
    by apply list_elem_of_fmap_2. }
  apply list_elem_of_fmap in Hin as (e & He & Hein).
  unfold month_total. apply sumQc_positive.
  - intros Hnil. apply fmap_nil_inv in Hnil.
    assert (e ∈ filter (λ e0, month_of dateYear dateMonth e0 = Monthly._id g) docs) as H
      by (by apply list_elem_of_filter).
    rewrite Hnil in H. by apply elem_of_nil in H.
  - apply Forall_fmap, Forall_forall. intros e' He'. simpl.
    rewrite Forall_forall in Hpos. apply Hpos.
    by apply list_elem_of_filter in He' as [_ [_ ?]%list_elem_of_filter].
Qed.

(** X16. When every stored amount is greater than zero, every total of
    both statistics is greater than zero, so the charts never divide by
    zero: each bar of a chart has a width above 0 and at most 100
    percent, there is one bar for each group, and a chart that is
    rendered has a bar of exactly 100 percent. *)
Theorem chart_bars_are_bounded (store : list Expense) (userId : string) :
  Forall (λ e, 0 < amount e) store →
  (Forall (λ t, 0 < t) (map ByCategory.total (expensesByCategory store userId)) ∧
   length (bar_widths (map ByCategory.total (expensesByCategory store userId)))
   = length (expensesByCategory store userId) ∧
   Forall (λ w, 0 < w ∧ w ≤ Q2Qc (inject_Z 100))
          (bar_widths (map ByCategory.total (expensesByCategory store userId))) ∧
   (expensesByCategory store userId ≠ [] →
    Q2Qc (inject_Z 100)
      ∈ bar_widths (map ByCategory.total (expensesByCategory store userId)))) ∧
  (Forall (λ t, 0 < t)
          (map Monthly.total (monthlyExpenses dateYear dateMonth store userId)) ∧
   length (bar_widths (map Monthly.total
                           (monthlyExpenses dateYear dateMonth store userId)))
   = length (monthlyExpenses dateYear dateMonth store userId) ∧
   Forall (λ w, 0 < w ∧ w ≤ Q2Qc (inject_Z 100))
          (bar_widths (map Monthly.total
                           (monthlyExpenses dateYear dateMonth store userId))) ∧
   (monthlyExpenses dateYear dateMonth store userId ≠ [] →
    Q2Qc (inject_Z 100)
      ∈ bar_widths (map Monthly.total
                        (monthlyExpenses dateYear dateMonth store userId)))).
Proof.
  intros Hpos.
  pose proof (category_totals_positive store userId Hpos) as Hc.
  pose proof (monthly_totals_positive store userId Hpos) as Hm.
  split.
  - split; [done|].
    destruct (expensesByCategory store userId) as [|g gs] eqn:Hg; [done|].
    destruct (bar_widths_bounds (map ByCategory.total (g :: gs))) as (Hl & Hb & H100);
      [done..|].
    rewrite length_map in Hl. done.
  - split; [done|].
    destruct (monthlyExpenses dateYear dateMonth store userId) as [|g gs] eqn:Hg; [done|].
    destruct (bar_widths_bounds (map Monthly.total (g :: gs))) as (Hl & Hb & H100);
      [done..|].
    rewrite length_map in Hl. done.
Qed.

End chart_claims.

Lemma chart_bars_are_bounded_witness :
  Forall (λ e, 0 < amount e) scenario2 ∧
  Forall (λ w, 0 < w ∧ w ≤ Q2Qc (inject_Z 100))
         (bar_widths (map ByCategory.total (expensesByCategory scenario2 "U1"))).
Proof.
  assert (Forall (λ e, 0 < amount e) scenario2) as H by (repeat constructor).
  split; [exact H|].
  exact (proj1 (proj2 (proj2 (proj1
           (chart_bars_are_bounded sampleYear sampleMonth scenario2 "U1" H))))).
Defined.

(** ** Accounts *)

Section account_facts.
Variable hash : string → string → string.
Variable compare : string → string → bool.
Variable sign : Claims.t → string.
Variable valid : Account.t → bool.
Implicit Types (users : list Account.t) (u : Account.t).

Lemma find_taken_None users username email :
  find_taken users username email = None →
  (username ∉ map Account.username users) ∧ (email ∉ map Account.email users).
Proof.
  intros Hfind. unfold find_taken in Hfind. split.
  - intros (u & -> & Hu)%list_elem_of_fmap. apply list_elem_of_In in Hu.
    pose proof (find_none _ _ Hfind u Hu) as H. simpl in H.
    by rewrite bool_decide_eq_true_2 in H.
  - intros (u & -> & Hu)%list_elem_of_fmap. apply list_elem_of_In in Hu.
    pose proof (find_none _ _ Hfind u Hu) as H. simpl in H.
    rewrite (bool_decide_eq_true_2 (Account.email u = Account.email u)) in H by done.
    by rewrite orb_true_r in H.
Qed.

Lemma find_username_last users u :
  Account.username u ∉ map Account.username users →
  find_username (users ++ [u]) (Account.username u) = Some u.
Proof.
  unfold find_username. induction users as [|v users IH]; simpl.
  - intros _. by rewrite bool_decide_eq_true_2.
  - intros [Hv Hu]%not_elem_of_cons.
    rewrite bool_decide_eq_false_2 by done. by apply IH.
Qed.

(** X17. Registration keeps the collection of users free of duplicates:
    when no two accounts share a user name or an e-mail address, the
    same holds after any registration request; the accounts that were
    there stay as they were; and a request is answered with 201 only
    when neither its user name nor its address was taken, the new
    account being added last with the hash of the password. *)
Theorem register_keeps_accounts_unique users username email password salt newId now :
  NoDup (map Account.username users) →
  NoDup (map Account.email users) →
  NoDup (map Account.username
             (register hash sign valid users username email password salt newId now).2) ∧
  NoDup (map Account.email
             (register hash sign valid users username email password salt newId now).2) ∧
  users `prefix_of`
    (register hash sign valid users username email password salt newId now).2 ∧
  (∀ token user,
     (register hash sign valid users username email password salt newId now).1
     = Registered token user →
     (username ∉ map Account.username users) ∧ (email ∉ map Account.email users) ∧
     (register hash sign valid users username email password salt newId now).2
     = users ++ [Account.mk newId username email (hash password salt) "" now]).
Proof.
  intros Hn He. unfold register.
  destruct (find_taken users username email) as [u|] eqn:Hfind; simpl.
  { by split_and!. }
  destruct (find_taken_None _ _ _ Hfind) as [Hu Hm].
  unfold save_user. simpl.
  destruct (valid _); simpl; [|by split_and!].
  rewrite !bool_decide_eq_true_2 by done. simpl.
  split_and!.
  - rewrite map_app. simpl. apply NoDup_app. split_and!; [done| |apply NoDup_singleton].
    by intros x Hx ->%list_elem_of_singleton.
  - rewrite map_app. simpl. apply NoDup_app. split_and!; [done| |apply NoDup_singleton].
    by intros x Hx ->%list_elem_of_singleton.
  - by apply prefix_app_r.
  - done.
Qed.

(** X18. Whoever has registered can log in: when [bcrypt.compare]
    accepts a password against each of its hashes, a login with the user
    name and the password of a successful registration succeeds, for the
    same user and with the token of the same payload. *)
Theorem register_then_login users username email password salt newId now token user :
  (∀ p s, compare p (hash p s) = true) →
  (register hash sign valid users username email password salt newId now).1
  = Registered token user →
  login compare sign
        (register hash sign valid users username email password salt newId now).2
        username password
  = LoggedIn token user.
Proof.
  intros Hlaw. unfold register.
  destruct (find_taken users username email) as [u|] eqn:Hfind; simpl; [done|].
  destruct (find_taken_None _ _ _ Hfind) as [Hu Hm].
  unfold save_user. simpl.
  destruct (valid _); simpl; [|done].
  rewrite !bool_decide_eq_true_2 by done. simpl.
  intros [= <- <-]. unfold login.
  pose proof (find_username_last users
                (Account.mk newId username email (hash password salt) "" now) Hu) as Hf.
  simpl in Hf. rewrite Hf. simpl. by rewrite Hlaw.
Qed.

Lemma find_username_unique users u :
  NoDup (map Account.username users) → u ∈ users →
  find_username users (Account.username u) = Some u.
Proof.
  unfold find_username. induction users as [|v users IH]; simpl.
  - intros _ H. by apply elem_of_nil in H.
  - intros [Hv Hnd]%NoDup_cons [->|Hu]%elem_of_cons.
    + by rewrite bool_decide_eq_true_2.
    + rewrite bool_decide_eq_false_2; [by apply IH|].
      intros Heq. apply Hv. rewrite Heq. by apply list_elem_of_fmap_2.
Qed.

Lemma find_username_unknown users username :
  username ∉ map Account.username users → find_username users username = None.
Proof.
  unfold find_username. induction users as [|v users IH]; simpl; [done|].
  intros [Hv Hu]%not_elem_of_cons.
  rewrite bool_decide_eq_false_2 by done. by apply IH.
Qed.

(** X19. With user names that are unique, a login is decided by the one
    account of the name: it succeeds, for that account, exactly when
    [bcrypt.compare] accepts the password against its hash, and it is
    refused with the same answer when the password is wrong and when no
    account has the name. *)
Theorem login_is_decided_by_the_account users u password username :
  NoDup (map Account.username users) → u ∈ users →
  (username ∉ map Account.username users) →
  login compare sign users (Account.username u) password
  = (if compare password (Account.password u)
     then LoggedIn (sign (Claims.mk (Account._id u) (Account.username u)))
                   (UserInfo.mk (Account._id u) (Account.username u) (Account.email u))
     else Refused "Invalid credentials") ∧
  login compare sign users username password = Refused "Invalid credentials".
Proof.
  intros Hnd Hu Hun. unfold login. split.
  - by rewrite find_username_unique.
  - by rewrite find_username_unknown.
Qed.

End account_facts.

Lemma register_keeps_accounts_unique_witness :
  NoDup (map Account.username [alice_account]) ∧
  NoDup (map Account.email [alice_account]) ∧
  NoDup (map Account.username
           (register plain_hash id_token any_valid [alice_account]
                     "bob" "bob@example.org" "pw2" "salt" "id2" 1).2).
Proof.
  assert (NoDup (map Account.username [alice_account])) as H1
    by (apply (bool_decide_unpack _); by vm_compute).
  assert (NoDup (map Account.email [alice_account])) as H2
    by (apply (bool_decide_unpack _); by vm_compute).
  split_and!; [exact H1 | exact H2|].
  exact (proj1 (register_keeps_accounts_unique plain_hash id_token any_valid
                  [alice_account] "bob" "bob@example.org" "pw2" "salt" "id2" 1 H1 H2)).
Defined.

Lemma register_then_login_witness :
  login plain_compare id_token
        (register plain_hash id_token any_valid [alice_account]
                  "bob" "bob@example.org" "pw2" "salt" "id2" 1).2
        "bob" "pw2"
  = LoggedIn "id2" (UserInfo.mk "id2" "bob" "bob@example.org").
Proof.
  apply (register_then_login plain_hash plain_compare id_token any_valid
           [alice_account] "bob" "bob@example.org" "pw2" "salt" "id2" 1).
  - intros p s. by apply bool_decide_eq_true_2.
  - reflexivity.
Defined.

Lemma login_is_decided_by_the_account_witness :
  NoDup (map Account.username [alice_account]) ∧
  login plain_compare id_token [alice_account] "alice" "pw1"
  = LoggedIn "id1" (UserInfo.mk "id1" "alice" "alice@example.org") ∧
  login plain_compare id_token [alice_account] "bob" "pw1"
  = Refused "Invalid credentials".
Proof.
  assert (NoDup (map Account.username [alice_account])) as H1
    by (apply (bool_decide_unpack _); by vm_compute).
  assert (alice_account ∈ [alice_account]) as H2 by apply list_elem_of_here.
  assert ("bob" ∉ map Account.username [alice_account]) as H3
    by (apply (bool_decide_unpack _); by vm_compute).
  split; [exact H1|].
  exact (login_is_decided_by_the_account plain_compare id_token [alice_account]
           alice_account "pw1" "bob" H1 H2 H3).
Defined.
